(** * go-cartstack: cart stacks and the audio buffer editor

    A shallow embedding of the state transitions of [src/App.tsx] and
    [src/components/CartStack.tsx] (the stack registry and the per-stack
    cart queue) and of the buffer functions of
    [src/components/AudioEditor.tsx] (region export, ripple delete and the
    WAV writer), with the properties of the specification stated over them.

    Conventions.
    - A JavaScript array is a [list]; [findIndex] returns [option nat]
      ([None] for -1); [splice] is written with [delete], [take], [drop].
    - The registry object [Record<string, CartItem[]>] is a
      [gmap string (list CartItem)] of its own properties; [prev[k] ?? []]
      is [carts_of] for the id of a stack, and [sourceCarts] for a name
      out of a drag payload, which may be one that every object inherits.
    - JavaScript numbers that hold playback times and sample values are
      rationals ([Q]); integers (byte values, header fields) are [Z].
      Values of a [Float32Array] are dyadic rationals with 24 significant
      bits, so their products with 0x8000 and 0x7fff are exact in double
      precision; the value that is not a number is the constructor [NaN].
    - The times of a region are doubles ([float], binary64), and their
      product with the sample rate is the rounded product of doubles.
      What [Math.floor] makes of it is an integer, an infinity or NaN
      ([Integral]). *)

From Stdlib Require Import PrimFloat FloatOps SpecFloat.
From Stdlib Require Import ZArith QArith Qround Qabs Qpower String Ascii Lia Lqa.
From Stdlib Require Import DecimalString.
From stdpp Require Import gmap strings list fin_maps.

Local Open Scope string_scope.
Local Open Scope list_scope.

(* A decimal literal stands for the double nearest to it, as in the code. *)
Set Warnings "-inexact-float".

(** ** Data model ([src/types.ts]) *)

Inductive Status := queued | playing | paused | played.

#[global] Instance Status_eq_dec : EqDecision Status.
Proof. solve_decision. Defined.

(** The part of a DOM [File] the code reads: [file.name] and [file.type]. *)
Record File := mkFile { file_name : string; file_type : string }.

#[global] Instance File_eq_dec : EqDecision File.
Proof. solve_decision. Defined.

#[global] Instance Q_eq_dec : EqDecision Q.
Proof. solve_decision. Defined.

Record CartItem := mkCart {
  id : string;
  file : File;
  url : string;
  title : string;
  duration : Q;
  status : Status;
  addedAt : Z
}.

#[global] Instance CartItem_eq_dec : EqDecision CartItem.
Proof. solve_decision. Defined.

(** [{ ...c, status: s }] *)
Definition with_status (s : Status) (c : CartItem) : CartItem :=
  mkCart (id c) (file c) (url c) (title c) (duration c) s (addedAt c).

(** [{ ...c, duration: d }] *)
Definition with_duration (d : Q) (c : CartItem) : CartItem :=
  mkCart (id c) (file c) (url c) (title c) d (status c) (addedAt c).

(** [{ ...c, title: t }] *)
Definition with_title (t : string) (c : CartItem) : CartItem :=
  mkCart (id c) (file c) (url c) t (duration c) (status c) (addedAt c).

(** ** Array helpers *)

(** [l.findIndex(c => c.id === k)]; [None] stands for -1. *)
Definition findIndexId (k : string) (l : list CartItem) : option nat :=
  fst <$> list_find (λ c, id c = k) l.

(** [l.findIndex(c => c.status === 'playing')] *)
Definition findIndexPlaying (l : list CartItem) : option nat :=
  fst <$> list_find (λ c, status c = playing) l.

(** [l.splice(i, 0, x)] on a copy of [l]: a start beyond the end is clamped. *)
Definition splice_in {A} (i : nat) (x : A) (l : list A) : list A :=
  take i l ++ x :: drop i l.

(** ** The per-stack queue ([src/components/CartStack.tsx]) *)

Module CartStack.

(** What [await audio.play()] did; without an audio element [playCart]
    returns at once, and a rejected promise is caught and logged. *)
Inductive Playback := NoAudioElement | PlayRejected | PlayResolved.

(** The updater of [playCart]. *)
Definition playCart_updater (cart : CartItem) (prev : list CartItem)
  : list CartItem :=
  map (λ c,
    if decide (id c = id cart) then with_status playing c
    else if decide (status c = playing) then with_status played c
    else c) prev.

Definition playCart (a : Playback) (cart : CartItem) (prev : list CartItem)
  : list CartItem :=
  match a with
  | PlayResolved => playCart_updater cart prev
  | NoAudioElement | PlayRejected => prev
  end.

(** The updater shared, word for word, by [stopCart] and [handleEnded]. *)
Definition sinkPlaying (prev : list CartItem) : list CartItem :=
  match list_find (λ c, status c = playing) prev with
  | None => prev
  | Some (playingIndex, c) =>
      delete playingIndex prev ++ [with_status played c]
  end.

Definition stopCart (audio : bool) (prev : list CartItem) : list CartItem :=
  if audio then sinkPlaying prev else prev.

Definition handleEnded (prev : list CartItem) : list CartItem :=
  sinkPlaying prev.

Definition requeueCart (k : string) (prev : list CartItem) : list CartItem :=
  map (λ c, if decide (id c = k) then with_status queued c else c) prev.

(** The remove button: [prev.filter(c => c.id !== cart.id)]. *)
Definition removeCart (k : string) (prev : list CartItem) : list CartItem :=
  filter (λ c, id c ≠ k) prev.

(** [toId ? next.findIndex(c => c.id === toId) : next.length], followed by
    [if (insertIndex === -1) insertIndex = next.length].  The empty string
    is falsy, like [null]. *)
Definition insertIndexOf (toId : option string) (next : list CartItem) : nat :=
  match toId with
  | Some t =>
      if decide (t = "") then length next
      else default (length next) (findIndexId t next)
  | None => length next
  end.

(** [shouldReenable ? { ...moved, status: 'queued' } : moved] *)
Definition cartToInsert (insertIndex : nat) (moved : CartItem) : CartItem :=
  if decide (insertIndex = 0%nat ∧ status moved = played)
  then with_status queued moved else moved.

Definition moveCartWithinStack (fromId : string) (toId : option string)
    (prev : list CartItem) : list CartItem :=
  if decide (Some fromId = toId) then prev
  else match list_find (λ c, id c = fromId) prev with
  | None => prev
  | Some (fromIndex, moved) =>
      let next := delete fromIndex prev in
      let insertIndex := insertIndexOf toId next in
      splice_in insertIndex (cartToInsert insertIndex moved) next
  end.

(** [getActiveIndex] *)
Definition getActiveIndex (carts : list CartItem) : option nat :=
  match findIndexPlaying carts with
  | Some i => Some i
  | None => if decide (0 < length carts)%nat then Some 0%nat else None
  end.

(** *** The component state behind the handlers *)

(** The playback hooks of a [CartStack], [isPlaying] and [currentTime],
    with the [carts] it is rendered with. *)
Record Deck := mkDeck {
  isPlaying : bool;
  currentTime : Q;
  carts : list CartItem
}.

(** [playCart] on the component: [currentTime] is reset before
    [audio.play()] is awaited; [isPlaying] and the statuses change only
    when the promise resolves. *)
Definition playCartOnDeck (a : Playback) (cart : CartItem) (d : Deck) : Deck :=
  match a with
  | NoAudioElement => d
  | PlayRejected => mkDeck (isPlaying d) 0 (carts d)
  | PlayResolved => mkDeck true 0 (playCart_updater cart (carts d))
  end.

(** [stopCart] on the component: nothing without an audio element. *)
Definition stopCartOnDeck (a : Playback) (d : Deck) : Deck :=
  match a with
  | NoAudioElement => d
  | PlayRejected | PlayResolved => mkDeck false 0 (sinkPlaying (carts d))
  end.

(** The listener of the audio element's [ended] event. *)
Definition handleEndedOnDeck (d : Deck) : Deck :=
  mkDeck false 0 (sinkPlaying (carts d)).

(** The keyboard shortcut, for a key press that is the stack's hotkey and
    does not come from a text field: stop when playing, otherwise play
    [carts[0]] when there is one. *)
Definition handleKeyDown (a : Playback) (d : Deck) : Deck :=
  if isPlaying d then stopCartOnDeck a d
  else match carts d with
       | [] => d
       | topCart :: _ => playCartOnDeck a topCart d
       end.

(** *** Title editing *)

Record Editing := mkEditing {
  editingId : option string;
  draftTitle : string
}.

Definition startEditing (cart : CartItem) : Editing :=
  mkEditing (Some (id cart)) (title cart).

Definition cancelEditing : Editing := mkEditing None "".

Section CommitEditing.
(** [String.prototype.trim], supplied by the host. *)
Variable trim : string → string.

(** [draftTitle.trim() || 'Untitled'] *)
Definition nextTitle (draft : string) : string :=
  if decide (trim draft = "") then "Untitled" else trim draft.

(** [commitEditing]; an [editingId] that is [null] or empty is falsy. *)
Definition commitEditing (e : Editing) (prev : list CartItem)
  : Editing * list CartItem :=
  match editingId e with
  | None => (e, prev)
  | Some k =>
      if decide (k = "") then (e, prev)
      else (mkEditing None "",
            map (λ c, if decide (id c = k)
                      then with_title (nextTitle (draftTitle e)) c else c)
                prev)
  end.
End CommitEditing.

(** *** Drag and drop *)

(** The object a drag carries under [CART_MIME], once parsed. *)
Record Payload := mkPayload { cartId : string; sourceStackId : string }.


End CartStack.

(** ** The stack registry ([src/App.tsx]) *)

Module App.

Record StackDef := mkStack {
  stack_id : string; stack_label : string; stack_hotkey : string
}.

Definition STACKS : list StackDef :=
  [ mkStack "stack-a" "STACK A" "1";
    mkStack "stack-b" "STACK B" "2";
    mkStack "stack-c" "STACK C" "3" ].

Abbreviation Registry := (gmap string (list CartItem)).

(** The initial value of [stackState]: every stack of [STACKS] is empty. *)
Definition initialState : Registry :=
  foldl (λ acc stack, <[stack_id stack := []]> acc) ∅ STACKS.

(** [prev[stackId] ?? []], for the [stackId] of a stack of [STACKS]: the
    prop that [App] hands to each [CartStack] and to the editor's stack
    selector. *)
Definition carts_of (prev : Registry) (stackId : string) : list CartItem :=
  default [] (prev !! stackId).

(** [setStackCarts], the [setCarts] handed to each [CartStack].  The test
    [next === current] compares references: an updater that returns its
    argument leaves the registry as it is.  Structural equality stands for
    it here; the two differ only when an updater rebuilds an equal array,
    and then the registry that results holds the same carts. *)
Definition setStackCarts (stackId : string)
    (updater : list CartItem → list CartItem) (prev : Registry) : Registry :=
  let current := carts_of prev stackId in
  let next := updater current in
  if decide (next = current) then prev else <[stackId := next]> prev.

(** What the host supplies while carts are created: [uuidv4()],
    [URL.createObjectURL(file)] and [Date.now()], for the k-th new cart. *)
Record Host := mkHost {
  uuidv4 : nat → string;
  createObjectURL : nat → File → string;
  now : nat → Z
}.

Definition isAudio (f : File) : bool := String.prefix "audio/" (file_type f).

Definition newCarts (h : Host) (files : list File) : list CartItem :=
  imap (λ k f,
    mkCart (uuidv4 h k) f (createObjectURL h k f) (file_name f) 0 queued
           (now h k))
    (filter (λ f, isAudio f = true) files).

(** The synchronous part of [addFilesToStack]. *)
Definition addFilesToStack (h : Host) (stackId : string) (files : list File)
    (prev : Registry) : Registry :=
  match newCarts h files with
  | [] => prev
  | carts => <[stackId := carts_of prev stackId ++ carts]> prev
  end.

(** The [onloadedmetadata] callback that [addFilesToStack] registers for
    [cart]: [stackId] is the stack the cart was added to, captured by the
    closure, and [d] is [audio.duration]. *)
Definition onloadedmetadata (stackId : string) (cartId : string) (d : Q)
    (prev : Registry) : Registry :=
  <[stackId :=
      map (λ c, if decide (id c = cartId) then with_duration d c else c)
          (carts_of prev stackId)]> prev.

(** The names that every object inherits from [Object.prototype]. *)
Definition inheritedKeys : list string :=
  [ "constructor"; "hasOwnProperty"; "isPrototypeOf";
    "propertyIsEnumerable"; "toLocaleString"; "toString"; "valueOf";
    "__proto__"; "__defineGetter__"; "__defineSetter__";
    "__lookupGetter__"; "__lookupSetter__" ].

(** [prev[fromStackId] ?? []] for a name that comes out of a drag payload
    and may be any string.  A key of the registry holds its carts.  A name
    that is no key but is inherited holds a function, or the prototype for
    [__proto__], which is not nullish and has no [findIndex]: that is
    [None].  Any other name is [undefined], and [[]] stands in. *)
Definition sourceCarts (prev : Registry) (fromStackId : string)
  : option (list CartItem) :=
  match prev !! fromStackId with
  | Some fromCarts => Some fromCarts
  | None => if decide (fromStackId ∈ inheritedKeys) then None else Some []
  end.

(** What a state updater hands to React: the next registry, or the
    [TypeError] it throws.  React runs the updater while it renders, and
    nothing catches the error there. *)
Inductive Update := Next (st : Registry) | TypeError.

(** [moveCartAcrossStacks].  [toStackId] is the [stackId] prop of the stack
    that receives the drop, an id of [STACKS] and so a key of the registry
    at all times; it is read with [carts_of], like [setStackCarts] reads
    its [stackId].  [fromStackId] is [data.sourceStackId] of the payload:
    when it names no array, [fromCarts.findIndex] is not a function. *)
Definition moveCartAcrossStacks (fromStackId toStackId cartId : string)
    (targetId : option string) (prev : Registry) : Update :=
  if decide (fromStackId = toStackId) then Next prev
  else
    match sourceCarts prev fromStackId with
    | None => TypeError
    | Some fromCarts =>
        let toCarts := carts_of prev toStackId in
        match list_find (λ cart, id cart = cartId) fromCarts with
        | None => Next prev
        | Some (fromIndex, movedCart) =>
            let nextFrom := delete fromIndex fromCarts in
            let insertIndex := CartStack.insertIndexOf targetId toCarts in
            let nextTo :=
              splice_in insertIndex
                (CartStack.cartToInsert insertIndex movedCart) toCarts in
            Next (<[toStackId := nextTo]> (<[fromStackId := nextFrom]> prev))
        end
    end.

(** The operations of a [CartStack], lifted to the registry through the
    [setCarts] it receives; every call site passes an updater function.
    [stopCart] is taken with its audio element in place. *)
Definition playCart (stackId : string) (a : CartStack.Playback)
    (cart : CartItem) : Registry → Registry :=
  match a with
  | CartStack.PlayResolved =>
      setStackCarts stackId (CartStack.playCart_updater cart)
  | _ => λ prev, prev
  end.

Definition stopCart (stackId : string) : Registry → Registry :=
  setStackCarts stackId CartStack.sinkPlaying.

Definition handleEnded (stackId : string) : Registry → Registry :=
  setStackCarts stackId CartStack.sinkPlaying.

Definition moveCartWithinStack (stackId fromId : string)
    (toId : option string) : Registry → Registry :=
  setStackCarts stackId (CartStack.moveCartWithinStack fromId toId).

(** The number of carts whose status is [playing]: in one stack, and over
    every stack of the registry. *)
Definition playing_count (l : list CartItem) : nat :=
  length (filter (λ c, status c = playing) l).

Definition playing_total (st : Registry) : nat :=
  map_fold (λ _ l acc, playing_count l + acc)%nat 0%nat st.

(** [handleAddSelection] *)
Definition handleAddSelection (h : Host) (stackId : string) (f : File)
  : Registry → Registry :=
  addFilesToStack h stackId [f].

(** *** Drops on a stack *)

(** What a drop event carries: the dropped files, and the text stored
    under [CART_MIME]: [None] when there is none, [Some None] when
    [JSON.parse] rejects it, [Some (Some data)] otherwise. *)
Record DataTransfer := mkDataTransfer {
  dt_files : list File;
  dt_cart : option (option CartStack.Payload)
}.

(** [handleDrop] of the list of a stack. *)
Definition handleDrop (h : Host) (stackId : string) (dt : DataTransfer)
    (prev : Registry) : Update :=
  match dt_files dt with
  | _ :: _ => Next (addFilesToStack h stackId (dt_files dt) prev)
  | [] =>
      match dt_cart dt with
      | Some (Some data) =>
          if decide (CartStack.sourceStackId data = stackId)
          then Next (moveCartWithinStack stackId (CartStack.cartId data)
                       None prev)
          else moveCartAcrossStacks (CartStack.sourceStackId data) stackId
                 (CartStack.cartId data) None prev
      | _ => Next prev
      end
  end.

(** [onDrop] of the cart [cart] of a stack. *)
Definition onDropOnCart (h : Host) (stackId : string) (cart : CartItem)
    (dt : DataTransfer) (prev : Registry) : Update :=
  match dt_files dt with
  | _ :: _ => Next (addFilesToStack h stackId (dt_files dt) prev)
  | [] =>
      match dt_cart dt with
      | Some (Some data) =>
          if decide (CartStack.sourceStackId data = stackId)
          then
            if decide (CartStack.cartId data ≠ ""
                       ∧ CartStack.cartId data ≠ id cart)
            then Next (moveCartWithinStack stackId (CartStack.cartId data)
                         (Some (id cart)) prev)
            else Next prev
          else moveCartAcrossStacks (CartStack.sourceStackId data) stackId
                 (CartStack.cartId data) (Some (id cart)) prev
      | _ => Next prev
      end
  end.

End App.

(** ** The buffer editor ([src/components/AudioEditor.tsx]) *)

Module AudioEditor.

(** An element of a [Float32Array]. *)
Inductive Sample := Num (q : Q) | NaN.

(** The exceptions the DOM calls of this file can raise. *)
Inductive Exception := NotSupportedError | RangeError.

(** How a call completes.  [OutOfFuel] is no outcome of the code: it marks
    a loop that was cut off, and is shown never to appear where a result
    is stated. *)
Inductive result (A : Type) : Type :=
| Ok (a : A)
| Throw (e : Exception)
| OutOfFuel.
Arguments Ok {A} a.
Arguments Throw {A} e.
Arguments OutOfFuel {A}.

#[global] Instance result_ret : MRet result := @Ok.
#[global] Instance result_bind : MBind result := λ A B f m,
  match m with
  | Ok a => f a
  | Throw e => Throw e
  | OutOfFuel => OutOfFuel
  end.

(** An [AudioBuffer]: [numberOfChannels] is the number of channel arrays,
    and each of them holds [buffer_length] frames ([abuffer.length]). *)
Record AudioBuffer := mkBuffer {
  sampleRate : Z;
  buffer_length : nat;
  channels : list (list Sample)
}.

Definition numberOfChannels (b : AudioBuffer) : nat := length (channels b).

(** What the Web Audio API guarantees of every [AudioBuffer]: at least one
    channel, and every channel as long as the buffer. *)
Definition wf_buffer (b : AudioBuffer) : Prop :=
  (1 ≤ numberOfChannels b)%nat ∧
  Forall (λ ch, length ch = buffer_length b) (channels b).

(** *** Frame indices *)

(** The double that holds the sample rate. *)
Definition toNumber (z : Z) : float :=
  SF2Prim (binary_normalize prec emax z 0 false).

(** An integer-valued number: what [Math.floor] returns, and what the
    code computes from it. *)
Inductive Integral := Int (z : Z) | Infinity (negative : bool) | NotANumber.

(** [Math.floor(x)]: a finite double is [(-1)^s * m * 2^e], and a shift to
    the right rounds toward minus infinity. *)
Definition Math_floor (x : float) : Integral :=
  match Prim2SF x with
  | S754_zero _ => Int 0
  | S754_infinity s => Infinity s
  | S754_nan => NotANumber
  | S754_finite s m e => Int (Z.shiftl (cond_Zopp s (Z.pos m)) e)
  end.

(** [Math.floor(seconds * decodedBuffer.sampleRate)], the product being
    the rounded product of the two doubles. *)
Definition toSample (seconds : float) (rate : Z) : Integral :=
  Math_floor (seconds * toNumber rate)%float.

(** The double nearest to an integer, ties to even: integers up to 2^53
    are doubles; a larger one keeps its 53 leading bits, and from 2^1024
    on the result is infinite. *)
Definition roundInt (z : Z) : Integral :=
  let a := Z.abs z in
  let e := (Z.log2 a - 52)%Z in
  if decide (e ≤ 0)%Z then Int z
  else
    let q := Z.shiftr a e in
    let r := (a mod 2 ^ e)%Z in
    let half := (2 ^ (e - 1))%Z in
    let q' := if decide (r < half ∨ (r = half ∧ Z.even q = true))%Z
              then q else (q + 1)%Z in
    let m := (q' * 2 ^ e)%Z in
    if decide (2 ^ 1024 ≤ m)%Z then Infinity (z <? 0)%Z
    else Int (Z.sgn z * m).

(** [a - b] *)
Definition minus (a b : Integral) : Integral :=
  match a, b with
  | Int x, Int y => roundInt (x - y)
  | NotANumber, _ | _, NotANumber => NotANumber
  | Infinity s, Int _ => Infinity s
  | Int _, Infinity s => Infinity (negb s)
  | Infinity s, Infinity t => if Bool.eqb s t then NotANumber else Infinity s
  end.

(** [a <= b], which is false when either side is NaN. *)
Definition le_num (a b : Integral) : bool :=
  match a, b with
  | NotANumber, _ | _, NotANumber => false
  | Int x, Int y => bool_decide (x ≤ y)%Z
  | Infinity s, Infinity t => implb t s
  | Infinity s, Int _ => s
  | Int _, Infinity t => negb t
  end.

(** The conversion to [unsigned long] that a buffer length goes through:
    modulo 2^32, and 0 for NaN and the infinities. *)
Definition toUint32 (a : Integral) : Z :=
  match a with
  | Int z => (z mod 2 ^ 32)%Z
  | _ => 0%Z
  end.

(** How often the body of [for (let j = 0; j < length; j++)] runs.  The
    counter [j] is a double: at 2^53 the increment no longer changes it,
    and a loop that should go further does not end, which [OutOfFuel]
    stands for here. *)
Definition loopCount (length_ : Integral) : result nat :=
  match length_ with
  | Int n => if decide (2 ^ 53 < n)%Z then OutOfFuel else Ok (Z.to_nat n)
  | Infinity false => OutOfFuel
  | Infinity true | NotANumber => Ok 0%nat
  end.

(** The frames that a length counts once [createBuffer] has accepted it,
    when it is a positive integer. *)
Definition framesOf (len : Integral) : nat :=
  match len with
  | Int n => Z.to_nat n
  | _ => 0%nat
  end.

(** The nominal ranges of the audio engine of the browser: the channel
    counts and sample rates it accepts for a buffer. *)
Record Engine := mkEngine {
  maxChannels : nat;
  minSampleRate : Z;
  maxSampleRate : Z
}.

(** [new AudioContext().createBuffer(numberOfChannels, length, sampleRate)]:
    zero-filled channels.  The length is converted to [unsigned long]; a
    channel count, a length or a sample rate that is zero or outside the
    range of the engine raises [NotSupportedError]. *)
Definition createBuffer (engine : Engine) (nc : nat) (len : Integral)
    (rate : Z) : result AudioBuffer :=
  let length_ := toUint32 len in
  if decide (nc = 0%nat ∨ (maxChannels engine < nc)%nat ∨ length_ = 0%Z ∨
             (rate < minSampleRate engine)%Z ∨ (maxSampleRate engine < rate)%Z)
  then Throw NotSupportedError
  else Ok (mkBuffer rate (Z.to_nat length_)
             (replicate nc (replicate (Z.to_nat length_) (Num 0)))).

(** What holds of every [AudioBuffer] that the engine has made, the
    decoded one included: besides [wf_buffer], its channel count and its
    sample rate are in the ranges of the engine, and its length is an
    [unsigned long]. *)
Definition made_by (engine : Engine) (b : AudioBuffer) : Prop :=
  wf_buffer b ∧
  (numberOfChannels b ≤ maxChannels engine)%nat ∧
  (Z.of_nat (buffer_length b) < 2 ^ 32)%Z ∧
  (minSampleRate engine ≤ sampleRate b ≤ maxSampleRate engine)%Z.

(** [channelData[i]] read into a [Float32Array]: where [i] is no index of
    the array the read is [undefined], which is stored as [NaN]. *)
Definition readSample (channelData : list Sample) (i : Integral) : Sample :=
  match i with
  | Int z => if decide (z < 0)%Z then NaN
             else default NaN (channelData !! Z.to_nat z)
  | _ => NaN
  end.

(** [startSample + j] for the counter [j] of a loop.  The sum of doubles
    is exact whenever it is an index of an array, and no index otherwise. *)
Definition plus (a : Integral) (j : nat) : Integral :=
  match a with
  | Int z => Int (z + Z.of_nat j)
  | _ => a
  end.

(** A region of the regions plugin, in seconds. *)
Record Region := mkRegion { region_start : float; region_end : float }.

(** The inner loop of [exportSelectionBlob]:
    [for (j = 0; j < length; j++) newChannelData[j] = channelData[startSample + j]];
    a write past the end of [newChannelData] is dropped. *)
Definition copyRegion (channelData : list Sample) (startSample : Integral)
    (len : nat) (newChannelData : list Sample) : list Sample :=
  foldl (λ new j, <[j := readSample channelData (plus startSample j)]> new)
        newChannelData (seq 0 len).

(** The buffer that [exportSelectionBlob] builds and the [length] it
    hands to [bufferToWave] with it; [None] is the [null] it returns when
    the region holds no frame. *)
Definition extractRegion (engine : Engine) (decodedBuffer : AudioBuffer)
    (region : Region) : result (option (AudioBuffer * nat)) :=
  let startSample := toSample (region_start region) (sampleRate decodedBuffer) in
  let endSample := toSample (region_end region) (sampleRate decodedBuffer) in
  let length_ := minus endSample startSample in
  if le_num length_ (Int 0) then Ok None
  else
    newBuffer ← createBuffer engine (numberOfChannels decodedBuffer) length_
                             (sampleRate decodedBuffer) ;
    frames ← loopCount length_ ;
    mret (Some (mkBuffer (sampleRate newBuffer) (buffer_length newBuffer)
      (zip_with (λ channelData newChannelData,
                   copyRegion channelData startSample frames newChannelData)
                (channels decodedBuffer) (channels newBuffer)),
      frames)).

(** [a.subarray(begin, end)]: an index is made an integer (NaN is 0), a
    negative one counts from the end, and both are clamped to the array. *)
Definition relativeIndex (i : Integral) (len : nat) : nat :=
  match i with
  | Int z => if decide (z < 0)%Z then Z.to_nat (Z.max (Z.of_nat len + z) 0)
             else Z.to_nat (Z.min z (Z.of_nat len))
  | Infinity true | NotANumber => 0%nat
  | Infinity false => len
  end.

Definition subarray {A} (a : list A) (begin : Integral)
    (end_ : option Integral) : list A :=
  let b := relativeIndex begin (length a) in
  let e := match end_ with
           | Some e => relativeIndex e (length a)
           | None => length a
           end in
  take (e - b) (drop b a).

(** [target.set(source, offset)]: the offset is made an integer (NaN is
    0); [RangeError] when it is negative or the source does not fit at the
    offset. *)
Definition typedSet {A} (target source : list A) (offset : Integral)
  : result (list A) :=
  match offset with
  | Infinity _ => Throw RangeError
  | Int _ | NotANumber =>
      let o := match offset with Int z => z | _ => 0%Z end in
      if decide (o < 0 ∨ Z.of_nat (length target) < o + Z.of_nat (length source))%Z
      then Throw RangeError
      else Ok (list_inserts (Z.to_nat o) source target)
  end.

(** *** [bufferToWave] *)

(** The [DataView] over the [ArrayBuffer] (one [Z] in 0..255 per byte) and
    the variable [pos] that the writers share. *)
Record Writer := mkWriter { view : list Z; pos : nat }.

Definition W (A : Type) : Type := Writer → result (A * Writer).

#[global] Instance W_ret : MRet W := λ A a w, Ok (a, w).
#[global] Instance W_bind : MBind W := λ A B f m w,
  match m w with
  | Ok (a, w') => f a w'
  | Throw e => Throw e
  | OutOfFuel => OutOfFuel
  end.

Definition getPos : W nat := λ w, Ok (pos w, w).
Definition advance (n : nat) : W unit :=
  λ w, Ok (tt, mkWriter (view w) (pos w + n)).

(** The [n] low bytes of [x], least significant first. *)
Fixpoint le_bytes (n : nat) (x : Z) : list Z :=
  match n with
  | O => []
  | S n' => (x mod 256)%Z :: le_bytes n' (x / 256)%Z
  end.

(** [view.setUintN(pos, ..., true)]: the bytes go to [pos], and a write that
    leaves the buffer raises [RangeError]. *)
Definition store (bytes : list Z) : W unit := λ w,
  if decide (pos w + length bytes ≤ length (view w))%nat
  then Ok (tt, mkWriter (list_inserts (pos w) bytes (view w)) (pos w))
  else Throw RangeError.

Definition setUint16 (data : Z) : W unit :=
  store (le_bytes 2 (data mod 2 ^ 16)%Z) ;; advance 2.

Definition setUint32 (data : Z) : W unit :=
  store (le_bytes 4 (data mod 2 ^ 32)%Z) ;; advance 4.

(** [Math.min] and [Math.max]: [NaN] when an argument is. *)
Definition Math_min (a b : Sample) : Sample :=
  match a, b with
  | Num x, Num y => Num (if Qlt_le_dec y x then y else x)
  | _, _ => NaN
  end.

Definition Math_max (a b : Sample) : Sample :=
  match a, b with
  | Num x, Num y => Num (if Qlt_le_dec x y then y else x)
  | _, _ => NaN
  end.

(** [Math.max(-1, Math.min(1, s))] *)
Definition clamp (s : Sample) : Sample :=
  Math_max (Num (-1)) (Math_min (Num 1) s).

(** [sample < 0 ? sample * 0x8000 : sample * 0x7fff]; [NaN < 0] is false. *)
Definition scale (sample : Sample) : Sample :=
  match sample with
  | Num q => if Qlt_le_dec q 0 then Num (q * 32768) else Num (q * 32767)
  | NaN => NaN
  end.

(** The integer part of a rational, rounded toward zero. *)
Definition Qtrunc (q : Q) : Z := (Qnum q ÷ Zpos (Qden q))%Z.

(** The conversion [DataView.setInt16] applies to its value: [NaN] is 0,
    a number is truncated and wrapped to 16 bits, two's complement. *)
Definition toInt16 (x : Sample) : Z :=
  match x with
  | NaN => 0%Z
  | Num q =>
      let m := (Qtrunc q mod 2 ^ 16)%Z in
      if decide (2 ^ 15 ≤ m)%Z then (m - 2 ^ 16)%Z else m
  end.

(** The 16-bit value written for one sample. *)
Definition intSample (s : Sample) : Z := toInt16 (scale (clamp s)).

(** [view.setInt16(pos, intSample, true); pos += 2] *)
Definition setInt16 (x : Sample) : W unit :=
  store (le_bytes 2 (toInt16 x mod 2 ^ 16)%Z) ;; advance 2.

(** [channels[i][offset]] *)
Definition sampleAt (channelData : list Sample) (offset : nat) : Sample :=
  default NaN (channelData !! offset).

(** The [for] loop over the channels, for the frame [offset]. *)
Fixpoint writeFrame (chans : list (list Sample)) (offset : nat) : W unit :=
  match chans with
  | [] => mret tt
  | channelData :: rest =>
      setInt16 (scale (clamp (sampleAt channelData offset))) ;;
      writeFrame rest offset
  end.

(** [while (pos < length) { for ...; offset++ }] *)
Fixpoint writeFrames (fuel : nat) (length_ : nat)
    (chans : list (list Sample)) (offset : nat) : W unit :=
  λ w,
    if decide (pos w < length_)%nat then
      match fuel with
      | O => OutOfFuel
      | S fuel' =>
          (writeFrame chans offset ;;
           writeFrames fuel' length_ chans (S offset)) w
      end
    else Ok (tt, w).

Definition writeHeader (abuffer : AudioBuffer) (numOfChan length_ : nat)
  : W unit :=
  setUint32 0x46464952 ;;
  setUint32 (Z.of_nat length_ - 8) ;;
  setUint32 0x45564157 ;;
  setUint32 0x20746d66 ;;
  setUint32 16 ;;
  setUint16 1 ;;
  setUint16 (Z.of_nat numOfChan) ;;
  setUint32 (sampleRate abuffer) ;;
  setUint32 (sampleRate abuffer * 2 * Z.of_nat numOfChan) ;;
  setUint16 (Z.of_nat numOfChan * 2) ;;
  setUint16 16 ;;
  setUint32 0x61746164 ;;
  p ← getPos ;
  setUint32 (Z.of_nat length_ - Z.of_nat p - 4).

(** The bytes of the [Blob] that [bufferToWave(abuffer, len)] returns.  The
    loop runs once per frame, so [len + 1] rounds of fuel are enough. *)
Definition bufferToWave (abuffer : AudioBuffer) (len : nat) : result (list Z) :=
  let numOfChan := numberOfChannels abuffer in
  let length_ := (len * numOfChan * 2 + 44)%nat in
  let buffer := replicate length_ 0%Z in
  '(_, w) ← (writeHeader abuffer numOfChan length_ ;;
             writeFrames (S len) length_ (channels abuffer) 0)
            (mkWriter buffer 0) ;
  mret (view w).

(** [exportSelectionBlob]; [wavesurfer] is [None] when the editor has no
    [WaveSurfer] yet, and holds [getDecodedData()] otherwise. *)
Definition exportSelectionBlob (engine : Engine)
    (wavesurfer : option (option AudioBuffer)) (regions : list Region)
  : result (option (list Z)) :=
  match wavesurfer, regions with
  | Some (Some decodedBuffer), region :: _ =>
      r ← extractRegion engine decodedBuffer region ;
      match r with
      | None => mret None
      | Some (newBuffer, length_) =>
          wavBlob ← bufferToWave newBuffer length_ ;
          mret (Some wavBlob)
      end
  | _, _ => mret None
  end.

(** *** [rippleDeleteSelection] *)

(** What a ripple delete did to the editor: nothing, [wavesurfer.empty()],
    or a new buffer loaded through its WAV encoding.  In the last two cases
    every region is removed as well. *)
Inductive RippleOutcome :=
| Unchanged
| Emptied
| Replaced (newBuffer : AudioBuffer) (wavBlob : list Z).

(** The body of the loop over the channels. *)
Definition rippleChannel (startSample endSample : Integral)
    (channelData newChannelData : list Sample) : result (list Sample) :=
  d ← typedSet newChannelData
        (subarray channelData (Int 0) (Some startSample)) (Int 0) ;
  typedSet d (subarray channelData endSample None) startSample.

(** [rippleDeleteSelection] *)
Definition rippleDeleteSelection (engine : Engine)
    (wavesurfer : option (option AudioBuffer)) (regions : list Region)
  : result RippleOutcome :=
  match wavesurfer, regions with
  | Some (Some decodedBuffer), region :: _ =>
      let startSample := toSample (region_start region) (sampleRate decodedBuffer) in
      let endSample := toSample (region_end region) (sampleRate decodedBuffer) in
      let cutLength := minus endSample startSample in
      let length_ := Int (Z.of_nat (buffer_length decodedBuffer)) in
      if le_num cutLength (Int 0) then mret Unchanged
      else if le_num length_ cutLength then mret Emptied
      else
        let newLength := minus length_ cutLength in
        newBuffer ← createBuffer engine (numberOfChannels decodedBuffer)
                                 newLength (sampleRate decodedBuffer) ;
        chans ← mapM (λ '(channelData, newChannelData),
                        rippleChannel startSample endSample
                                      channelData newChannelData)
                     (zip (channels decodedBuffer) (channels newBuffer)) ;
        let edited :=
          mkBuffer (sampleRate newBuffer) (buffer_length newBuffer) chans in
        wavBlob ← bufferToWave edited (framesOf newLength) ;
        mret (Replaced edited wavBlob)
  | _, _ => mret Unchanged
  end.

(** *** [addSelectionToStack] *)

(** [`clip_${Date.now()}.wav`]; the clock is in milliseconds, an integer
    that prints in plain decimal. *)
Definition clipName (now : N) : string :=
  "clip_" ++ NilZero.string_of_uint (N.to_uint now) ++ ".wav".

(** The type [bufferToWave] gives its [Blob]. *)
Definition wavBlobType : string := "audio/wav".

(** What [addSelectionToStack] ends with: nothing, the alert that asks
    for a region, or the call [onAddSelection(stackId, file)]. *)
Inductive Selection :=
| NoSelectionCall
| AlertNoRegion
| AddSelection (stackId : string) (f : File).

Definition addSelectionToStack (engine : Engine) (onAddSelection : bool)
    (selectedStackId : string) (wavesurfer : option (option AudioBuffer))
    (regions : list Region) (now : N) : result Selection :=
  if decide (onAddSelection = false ∨ selectedStackId = "")
  then mret NoSelectionCall
  else
    wavBlob ← exportSelectionBlob engine wavesurfer regions ;
    match wavBlob with
    | None => mret AlertNoRegion
    | Some _ =>
        mret (AddSelection selectedStackId
                (mkFile (clipName now)
                   (if decide (wavBlobType = "") then "audio/wav"
                    else wavBlobType)))
    end.

End AudioEditor.

(** ** The editor wired to the registry ([src/App.tsx]) *)

(** [<AudioEditor onAddSelection={handleAddSelection} />]: what a
    completed [addSelectionToStack] does to the registry. *)
Definition onAddSelection (h : App.Host) (sel : AudioEditor.Selection)
    (prev : App.Registry) : App.Registry :=
  match sel with
  | AudioEditor.AddSelection stackId f => App.handleAddSelection h stackId f prev
  | _ => prev
  end.

(** * Vocabulary of the properties *)

(** ** The cart queue and the registry *)

(** Where a move leaves the moved cart, and with which status: [next]
    holds the id [k] at exactly one position; the cart there has the file,
    url, title, duration and timestamp of [moved]; its status is [queued]
    when the position is 0 and [moved] was [played], and the status of
    [moved] in every other case. *)
Definition placed (k : string) (moved : CartItem) (next : list CartItem)
  : Prop :=
  ∃ (p : nat) (c : CartItem),
    next !! p = Some c ∧ id c = k ∧
    (∀ p' c', next !! p' = Some c' → id c' = k → p' = p) ∧
    (file c = file moved ∧ url c = url moved ∧ title c = title moved ∧
     duration c = duration moved ∧ addedAt c = addedAt moved) ∧
    (p = 0%nat → status moved = played → status c = queued) ∧
    (p = 0%nat → status moved ≠ played → status c = status moved) ∧
    ((0 < p)%nat → status c = status moved).

(** How often the id [k] occurs in a stack. *)
Definition occurrences (k : string) (l : list CartItem) : nat :=
  length (filter (λ c, id c = k) l).

(** ** Doubles *)

(** The rational number that a finite double is: [(-1)^s * m * 2^e]. *)
Definition valueOf (x : float) : option Q :=
  match Prim2SF x with
  | S754_zero _ => Some 0%Q
  | S754_finite s m e => Some (inject_Z (cond_Zopp s (Z.pos m)) * 2 ^ e)%Q
  | S754_infinity _ | S754_nan => None
  end.

(** Sample rates in use, from 3000 Hz to 768000 Hz. *)
Definition commonRates : list Z :=
  [ 3000; 8000; 11025; 12000; 16000; 22050; 24000; 32000; 44100; 48000;
    88200; 96000; 176400; 192000; 384000; 768000 ]%Z.

(** ** The WAV file *)

(** The layout of the produced file, for comparison with the writer. *)

Definition ascii_bytes (s : string) : list Z :=
  map (λ c, Z.of_N (N_of_ascii c)) (list_ascii_of_string s).

Definition u16le (x : Z) : list Z := AudioEditor.le_bytes 2 (x mod 2 ^ 16)%Z.
Definition u32le (x : Z) : list Z := AudioEditor.le_bytes 4 (x mod 2 ^ 32)%Z.

(** The 44 bytes of the header, field after field. *)
Definition headerBytes (abuffer : AudioEditor.AudioBuffer) (len : nat)
  : list Z :=
  let numOfChan := Z.of_nat (AudioEditor.numberOfChannels abuffer) in
  let dataLength := (Z.of_nat len * numOfChan * 2)%Z in
  ascii_bytes "RIFF" ++ u32le (dataLength + 44 - 8) ++
  ascii_bytes "WAVE" ++
  ascii_bytes "fmt " ++ u32le 16 ++ u16le 1 ++ u16le numOfChan ++
  u32le (AudioEditor.sampleRate abuffer) ++
  u32le (AudioEditor.sampleRate abuffer * 2 * numOfChan) ++
  u16le (numOfChan * 2) ++ u16le 16 ++
  ascii_bytes "data" ++ u32le dataLength.

(** One frame: the 16-bit value of each channel in turn. *)
Definition frameBytes (chans : list (list AudioEditor.Sample)) (offset : nat)
  : list Z :=
  concat (map (λ channelData,
                 u16le (AudioEditor.intSample
                          (AudioEditor.sampleAt channelData offset)))
              chans).

Definition dataBytes (abuffer : AudioEditor.AudioBuffer) (len : nat) : list Z :=
  concat (map (frameBytes (AudioEditor.channels abuffer)) (seq 0 len)).

(** Reading the file back: little-endian unsigned and signed integers. *)
Fixpoint le_combine (bytes : list Z) : Z :=
  match bytes with
  | [] => 0
  | b :: rest => b + 256 * le_combine rest
  end%Z.

Definition readUint (n : nat) (bytes : list Z) (offset : nat) : Z :=
  le_combine (take n (drop offset bytes)).

Definition readInt16 (bytes : list Z) (offset : nat) : Z :=
  let u := readUint 2 bytes offset in
  if decide (2 ^ 15 ≤ u)%Z then (u - 2 ^ 16)%Z else u.

(** The writer after [out] has been written, with [rest] bytes to go. *)
Definition written (out : list Z) (rest : nat) : AudioEditor.Writer :=
  AudioEditor.mkWriter (out ++ replicate rest 0%Z) (length out).

(** A 16-bit sample read back as a number: the inverse of the scaling that
    [bufferToWave] applies. *)
Definition pcmToNumber (v : Z) : Q :=
  if decide (v < 0)%Z then v # 32768 else v # 32767.

(** ** Examples *)

(** Two carts for the examples: [cartA] is on air, [cartB] waits. *)
Definition wavFile (n : string) : File := mkFile n "audio/wav".
Definition cartA : CartItem :=
  mkCart "id-a" (wavFile "a.wav") "blob:a" "a.wav" 0 playing 0.
Definition cartB : CartItem :=
  mkCart "id-b" (wavFile "b.wav") "blob:b" "b.wav" 0 queued 0.
Definition cartP : CartItem :=
  mkCart "id-p" (wavFile "p.wav") "blob:p" "p.wav" 0 played 0.

Definition hostA : App.Host :=
  App.mkHost (λ _, "id-a") (λ _ _, "blob:a") (λ _, 0%Z).
Definition hostB : App.Host :=
  App.mkHost (λ _, "id-b") (λ _ _, "blob:b") (λ _, 0%Z).

(** The ranges that every audio engine has to support: 32 channels, and
    sample rates from 8000 Hz to 96000 Hz. *)
Definition webAudio : AudioEditor.Engine := AudioEditor.mkEngine 32 8000 96000.

(** A mono buffer of five frames at 8000 Hz. *)
Definition mono5 : AudioEditor.AudioBuffer :=
  AudioEditor.mkBuffer 8000 5
    [[AudioEditor.Num 1; AudioEditor.Num 2; AudioEditor.Num 3;
      AudioEditor.Num 4; AudioEditor.Num 5]].

(** Regions of [mono5]: the frames 1 and 2; a region that ends past the
    last frame; and a region between two times that fall on one frame. *)
Definition frames12 : AudioEditor.Region := AudioEditor.mkRegion 0.0002 0.0004.
Definition pastEnd : AudioEditor.Region := AudioEditor.mkRegion 0.0003 0.0008.
Definition noFrame : AudioEditor.Region := AudioEditor.mkRegion 0.7 0.70005.

(** Two channels of ten frames at 8000 Hz. *)
Definition stereo10 : AudioEditor.AudioBuffer :=
  AudioEditor.mkBuffer 8000 10
    [replicate 10 (AudioEditor.Num (1 # 2));
     replicate 10 (AudioEditor.Num (-1))].

(** What the deck of one stack keeps: distinct cart ids, at most one
    playing cart, and no playing cart while the deck does not play. *)
Definition deck_ok (d : CartStack.Deck) : Prop :=
  NoDup (map id (CartStack.carts d)) ∧
  (App.playing_count (CartStack.carts d) ≤ 1)%nat ∧
  (CartStack.isPlaying d = false →
   App.playing_count (CartStack.carts d) = 0%nat).


(** * Properties *)

(** ** List lemmas shared by the proofs *)

Section ListFacts.
Context {A : Type}.
Implicit Types l : list A.

Lemma map_fmap {B} (f : A → B) l : map f l = f <$> l.
Proof. induction l as [|a l IH]; [done|]. cbn. by rewrite IH. Qed.

(** The inserted element sits at the insertion index. *)
Lemma splice_in_lookup_at i (x : A) l :
  (i ≤ length l)%nat → splice_in i x l !! i = Some x.
Proof.
  intros Hi. unfold splice_in.
  rewrite lookup_app_r; rewrite length_take; [|lia].
  replace (i - i `min` length l)%nat with 0%nat by lia. done.
Qed.

(** Every other position of the result holds an element of the list. *)
Lemma splice_in_lookup_other i (x : A) l k y :
  (i ≤ length l)%nat → splice_in i x l !! k = Some y → k ≠ i → y ∈ l.
Proof.
  intros Hi Hk Hne. unfold splice_in in Hk.
  apply lookup_app_Some in Hk as [Hk | [Hge Hk]].
  - apply list_elem_of_lookup_2 in Hk. by eapply subseteq_take.
  - rewrite length_take in Hge, Hk.
    destruct (k - i `min` length l)%nat as [|n] eqn:E; [lia|].
    simpl in Hk. apply list_elem_of_lookup_2 in Hk.
    by eapply subseteq_drop.
Qed.

Lemma splice_in_end (x : A) l : splice_in (length l) x l = l ++ [x].
Proof. unfold splice_in. by rewrite take_ge, drop_ge by lia. Qed.

End ListFacts.

(** ** The cart queue *)

Section PlayCart.
Import CartStack.

Lemma playCart_lookup cart prev i :
  playCart PlayResolved cart prev !! i =
  (λ c, if decide (id c = id cart) then with_status playing c
        else if decide (status c = playing) then with_status played c
        else c) <$> prev !! i.
Proof. simpl. unfold playCart_updater. by rewrite map_fmap, list_lookup_fmap. Qed.

(** C1, as the specification words it, fails: with [cartA] on air,
    activating [cartB] demotes [cartA] but does not move it to the tail of
    the stack, where [cartB] stays. *)
Lemma C1_counterexample :
  ¬ (∀ c, c ∈ [cartA; cartB] → id c ≠ id cartB → status c = playing →
       last (playCart PlayResolved cartB [cartA; cartB])
       = Some (with_status played c)).
Proof.
  intros H. specialize (H cartA).
  assert (Hin : cartA ∈ [cartA; cartB]) by apply list_elem_of_here.
  specialize (H Hin). vm_compute in H.
  assert (Hne : "id-a" ≠ "id-b") by discriminate.
  specialize (H Hne eq_refl). discriminate H.
Qed.

(** C1 (amended): activation changes statuses in place.  The stack keeps
    its length and every cart its position and its other fields; the cart
    with the activated id becomes [playing], every other cart that was
    [playing] becomes [played], and the remaining carts are untouched. *)
Theorem C1_playCart_in_place (cart : CartItem) (prev : list CartItem) :
  let next := playCart PlayResolved cart prev in
  length next = length prev ∧
  ∀ i c, prev !! i = Some c →
    ∃ c', next !! i = Some c' ∧
      id c' = id c ∧ file c' = file c ∧ url c' = url c ∧
      title c' = title c ∧ duration c' = duration c ∧
      addedAt c' = addedAt c ∧
      (id c = id cart → status c' = playing) ∧
      (id c ≠ id cart → status c = playing → status c' = played) ∧
      (id c ≠ id cart → status c ≠ playing → c' = c).
Proof.
  intros next. split.
  - unfold next. simpl. unfold playCart_updater. apply length_map.
  - intros i c Hc. unfold next. rewrite playCart_lookup, Hc. simpl.
    eexists. split; [reflexivity|].
    repeat case_decide; simpl; repeat split; congruence.
Qed.

Lemma C1_playCart_in_place_witness :
  ∃ c', playCart PlayResolved cartB [cartA; cartB] !! 0%nat = Some c' ∧
        id c' = id cartA ∧ status c' = played.
Proof.
  destruct (C1_playCart_in_place cartB [cartA; cartB]) as [_ H].
  destruct (H 0%nat cartA eq_refl)
    as (c' & Hc' & Hid & _ & _ & _ & _ & _ & _ & Hst & _).
  exists c'. split; [exact Hc'|]. split; [exact Hid|].
  apply Hst; [discriminate | reflexivity].
Defined.
End PlayCart.

Section Moves.
Import CartStack App.

Lemma list_find_unique_id (prev : list CartItem) i moved :
  NoDup (map id prev) → prev !! i = Some moved →
  list_find (λ c, id c = id moved) prev = Some (i, moved).
Proof.
  intros Hnd Hi. apply list_find_Some. split; [done|]. split; [done|].
  intros j y Hj Hlt Heq. rewrite map_fmap in Hnd.
  assert (i = j); [|lia].
  apply (NoDup_lookup _ _ _ (id moved) Hnd).
  - by rewrite list_lookup_fmap, Hi.
  - rewrite list_lookup_fmap, Hj. simpl. by rewrite Heq.
Qed.

Lemma delete_forgets_id (prev : list CartItem) i moved y :
  NoDup (map id prev) → prev !! i = Some moved →
  y ∈ delete i prev → id y ≠ id moved.
Proof.
  intros Hnd Hi [k Hk]%list_elem_of_lookup_1 Heq.
  rewrite map_fmap in Hnd.
  assert (∃ k', k' ≠ i ∧ prev !! k' = Some y) as (k' & Hne & Hk').
  { destruct (decide (k < i)%nat).
    - exists k. split; [lia|]. by rewrite list_lookup_delete_lt in Hk.
    - exists (S k). split; [lia|]. by rewrite list_lookup_delete_ge in Hk by lia. }
  apply Hne. apply (NoDup_lookup _ _ _ (id moved) Hnd).
  - rewrite list_lookup_fmap, Hk'. simpl. by rewrite Heq.
  - by rewrite list_lookup_fmap, Hi.
Qed.

Lemma findIndexId_Some k (l : list CartItem) j :
  findIndexId k l = Some j ↔
  ∃ c, l !! j = Some c ∧ id c = k ∧
       ∀ j' c', l !! j' = Some c' → (j' < j)%nat → id c' ≠ k.
Proof.
  unfold findIndexId. split.
  - destruct (list_find _ l) as [[j0 c]|] eqn:E; [|done].
    intros [= <-]. apply list_find_Some in E. exists c. naive_solver.
  - intros (c & H1 & H2 & H3).
    assert (list_find (λ c, id c = k) l = Some (j, c)) as ->; [|done].
    apply list_find_Some. naive_solver.
Qed.

Lemma findIndexId_None k (l : list CartItem) :
  findIndexId k l = None ↔ ∀ c, c ∈ l → id c ≠ k.
Proof.
  unfold findIndexId. split.
  - destruct (list_find _ l) as [[j0 c]|] eqn:E; [done|].
    intros _. apply list_find_None in E.
    intros c Hc. by eapply (proj1 (Forall_forall _ _) E).
  - intros H.
    assert (list_find (λ c, id c = k) l = None) as ->; [|done].
    apply list_find_None, Forall_forall. exact H.
Qed.

Lemma insertIndexOf_le toId (next : list CartItem) :
  (insertIndexOf toId next ≤ length next)%nat.
Proof.
  unfold insertIndexOf. destruct toId as [t|]; [|done].
  case_decide; [done|].
  destruct (findIndexId t next) as [j|] eqn:E; [|done]. simpl.
  apply findIndexId_Some in E as (c & Hc & _).
  apply lookup_lt_Some in Hc. lia.
Qed.

Lemma placed_splice_in moved rest j :
  (j ≤ length rest)%nat → (∀ y, y ∈ rest → id y ≠ id moved) →
  placed (id moved) moved (splice_in j (cartToInsert j moved) rest).
Proof.
  intros Hj Hrest. exists j, (cartToInsert j moved).
  split; [by apply splice_in_lookup_at|].
  split; [unfold cartToInsert; by case_decide|].
  split.
  { intros p' c' Hp' Hid. destruct (decide (p' = j)) as [|Hne]; [done|].
    apply splice_in_lookup_other in Hp'; [|done..].
    by apply Hrest in Hp'. }
  unfold cartToInsert. split; [by case_decide|]. split; [|split].
  - intros -> Hp. by rewrite decide_True.
  - intros -> Hp. rewrite decide_False; [done|tauto].
  - intros Hp. rewrite decide_False; [done|lia].
Qed.

Lemma carts_of_insert_eq (st : Registry) k l :
  carts_of (<[k := l]> st) k = l.
Proof. unfold carts_of. by rewrite lookup_insert_eq. Qed.

Lemma carts_of_insert_ne (st : Registry) k k' l :
  k ≠ k' → carts_of (<[k := l]> st) k' = carts_of st k'.
Proof. intros. unfold carts_of. by rewrite lookup_insert_ne. Qed.

Lemma carts_of_setStackCarts_eq (st : Registry) k f :
  carts_of (setStackCarts k f st) k = f (carts_of st k).
Proof.
  unfold setStackCarts. case_decide as E; [by rewrite E|].
  apply carts_of_insert_eq.
Qed.

Lemma carts_of_setStackCarts_ne (st : Registry) k k' f :
  k ≠ k' → carts_of (setStackCarts k f st) k' = carts_of st k'.
Proof.
  intros. unfold setStackCarts. case_decide; [done|].
  by apply carts_of_insert_ne.
Qed.

(** The carts read for the source of a move are those of [carts_of],
    unless the name is inherited and no key. *)
Lemma sourceCarts_Some (st : Registry) from fromCarts :
  sourceCarts st from = Some fromCarts → fromCarts = carts_of st from.
Proof.
  unfold sourceCarts, carts_of. destruct (st !! from) as [l|]; cbn.
  - by intros [= <-].
  - case_decide; [done|]. by intros [= <-].
Qed.

Lemma sourceCarts_None (st : Registry) from :
  sourceCarts st from = None ↔ st !! from = None ∧ from ∈ inheritedKeys.
Proof.
  unfold sourceCarts. destruct (st !! from) as [l|].
  - split; [done|]. by intros [? _].
  - destruct (decide (from ∈ inheritedKeys)); split; try done.
    by intros [_ ?].
Qed.

Lemma sourceCarts_elem (st : Registry) from c :
  c ∈ carts_of st from → sourceCarts st from = Some (carts_of st from).
Proof.
  unfold sourceCarts, carts_of. destruct (st !! from) as [l|]; [done|].
  cbn. by intros ?%elem_of_nil.
Qed.

(** What a cross-stack move that finds its cart does to each stack. *)
Lemma moveCartAcrossStacks_found from to cartId targetId (st : Registry)
    i moved :
  from ≠ to →
  list_find (λ c, id c = cartId) (carts_of st from) = Some (i, moved) →
  let j := insertIndexOf targetId (carts_of st to) in
  ∃ st', moveCartAcrossStacks from to cartId targetId st = Next st' ∧
    carts_of st' from = delete i (carts_of st from) ∧
    carts_of st' to = splice_in j (cartToInsert j moved) (carts_of st to) ∧
    ∀ k, k ≠ from → k ≠ to → carts_of st' k = carts_of st k.
Proof.
  intros Hne Hfind j. unfold moveCartAcrossStacks.
  rewrite decide_False by done.
  assert (moved ∈ carts_of st from) as Hin.
  { apply list_find_Some in Hfind as (Hi & _).
    by eapply list_elem_of_lookup_2. }
  rewrite (sourceCarts_elem _ _ _ Hin), Hfind.
  eexists. split; [done|]. split; [|split].
  - rewrite carts_of_insert_ne by done. apply carts_of_insert_eq.
  - apply carts_of_insert_eq.
  - intros k Hk1 Hk2. by rewrite !carts_of_insert_ne by done.
Qed.

(** The two ways a cross-stack move completes, and the one way it fails. *)
Lemma moveCartAcrossStacks_cases from to cartId targetId (st : Registry) :
  (from ≠ to ∧ sourceCarts st from = None ∧
   moveCartAcrossStacks from to cartId targetId st = TypeError) ∨
  moveCartAcrossStacks from to cartId targetId st = Next st ∨
  ∃ i moved, from ≠ to ∧
    list_find (λ c, id c = cartId) (carts_of st from) = Some (i, moved).
Proof.
  unfold moveCartAcrossStacks. case_decide; [by right; left|].
  destruct (sourceCarts st from) as [fromCarts|] eqn:E; [|by left].
  apply sourceCarts_Some in E as ->. right.
  destruct (list_find _ (carts_of st from)) as [[i moved]|] eqn:Ef;
    [right; by exists i, moved | by left].
Qed.

(** C7: a move that sets a cart down at position 0 requeues it when it was
    [played], and a move to any later position keeps its status; within
    a stack ([moveCartWithinStack]) and across stacks
    ([moveCartAcrossStacks]) alike: the cart that stands in the new place
    has status [queued] in the first case and the status of the moved cart
    in the second, and its other fields are those of the moved cart.  The
    ids of the stack are distinct, so that the moved cart is the one that
    carries its id. *)
Theorem C7_auto_requeue :
  (∀ fromId toId prev moved,
      Some fromId ≠ toId → NoDup (map id prev) →
      moved ∈ prev → id moved = fromId →
      placed fromId moved (CartStack.moveCartWithinStack fromId toId prev)) ∧
  (∀ from to cartId targetId (st : Registry) moved,
      from ≠ to → NoDup (map id (carts_of st from)) →
      moved ∈ carts_of st from → id moved = cartId →
      (∀ c, c ∈ carts_of st to → id c ≠ cartId) →
      ∃ st', moveCartAcrossStacks from to cartId targetId st = Next st' ∧
             placed cartId moved (carts_of st' to)).
Proof.
  split.
  - intros fromId toId prev moved Hne Hnd [i Hi]%list_elem_of_lookup_1 <-.
    unfold CartStack.moveCartWithinStack.
    rewrite decide_False by done.
    rewrite (list_find_unique_id _ _ _ Hnd Hi).
    apply placed_splice_in; [apply insertIndexOf_le|].
    intros y Hy. by eapply delete_forgets_id.
  - intros from to cartId targetId st moved Hne Hnd
      [i Hi]%list_elem_of_lookup_1 <- Hto.
    pose proof (list_find_unique_id _ _ _ Hnd Hi) as Hfind.
    destruct (moveCartAcrossStacks_found from to _ targetId st i moved
                Hne Hfind) as (st' & Hst' & _ & Hto' & _).
    exists st'. split; [exact Hst'|]. rewrite Hto'.
    apply placed_splice_in; [apply insertIndexOf_le | exact Hto].
Qed.

Lemma C7_auto_requeue_witness :
  placed "id-p" cartP
    (CartStack.moveCartWithinStack "id-p" (Some "id-b") [cartB; cartP]) ∧
  ∃ st', moveCartAcrossStacks "stack-a" "stack-b" "id-p" None
           (<["stack-a" := [cartB; cartP]]> initialState) = Next st' ∧
         placed "id-p" cartP (carts_of st' "stack-b").
Proof.
  destruct C7_auto_requeue as [Hwithin Hacross]. split.
  - apply Hwithin.
    + discriminate.
    + apply (bool_decide_unpack _). vm_compute. exact I.
    + apply (bool_decide_unpack _). vm_compute. exact I.
    + reflexivity.
  - apply Hacross.
    + discriminate.
    + apply (bool_decide_unpack _). vm_compute. exact I.
    + apply (bool_decide_unpack _). vm_compute. exact I.
    + reflexivity.
    + intros c Hc. vm_compute in Hc. inversion Hc.
Defined.

Lemma occurrences_app k l1 l2 :
  occurrences k (l1 ++ l2) = (occurrences k l1 + occurrences k l2)%nat.
Proof. unfold occurrences. by rewrite filter_app, length_app. Qed.

Lemma occurrences_cons k c l :
  occurrences k (c :: l) =
  ((if decide (id c = k) then 1 else 0) + occurrences k l)%nat.
Proof. unfold occurrences. rewrite filter_cons. by case_decide. Qed.

Lemma occurrences_delete k (l : list CartItem) i c :
  l !! i = Some c → id c = k →
  occurrences k l = S (occurrences k (delete i l)).
Proof.
  intros Hi Hid. rewrite <- (take_drop_middle l i c Hi) at 1.
  rewrite delete_take_drop, !occurrences_app, occurrences_cons.
  rewrite decide_True by done. lia.
Qed.

Lemma occurrences_splice_in k i c (l : list CartItem) :
  occurrences k (splice_in i c l) =
  ((if decide (id c = k) then 1 else 0) + occurrences k l)%nat.
Proof.
  unfold splice_in. rewrite occurrences_app, occurrences_cons.
  rewrite <- (take_drop i l) at 3. rewrite occurrences_app. lia.
Qed.

Lemma cartToInsert_fields j moved :
  let c := cartToInsert j moved in
  id c = id moved ∧ file c = file moved ∧ url c = url moved ∧
  title c = title moved ∧ duration c = duration moved ∧
  addedAt c = addedAt moved.
Proof. unfold cartToInsert. by case_decide. Qed.


End Moves.

(** ** The registry: playing carts *)

Section Playing.
Import CartStack App.

Lemma playing_total_insert (st : Registry) k l :
  (playing_total (<[k := l]> st) + playing_count (carts_of st k)
   = playing_total st + playing_count l)%nat.
Proof.
  unfold playing_total, carts_of. destruct (st !! k) as [v|] eqn:E; simpl.
  - rewrite <- (insert_delete_eq st).
    rewrite map_fold_insert_L;
      [|intros; lia|apply lookup_delete_eq].
    rewrite (map_fold_delete_L _ _ k v st); [|intros; lia|done]. lia.
  - rewrite map_fold_insert_L; [|intros; lia|done].
    change (playing_count []) with 0%nat. lia.
Qed.

Lemma playing_total_setStackCarts (st : Registry) k f :
  (playing_total (setStackCarts k f st) + playing_count (carts_of st k)
   = playing_total st + playing_count (f (carts_of st k)))%nat.
Proof.
  unfold setStackCarts. case_decide as E; [by rewrite E|].
  apply playing_total_insert.
Qed.

Lemma playing_count_app l1 l2 :
  playing_count (l1 ++ l2) = (playing_count l1 + playing_count l2)%nat.
Proof. unfold playing_count. by rewrite filter_app, length_app. Qed.

Lemma playing_count_cons c l :
  playing_count (c :: l) =
  ((if decide (status c = playing) then 1 else 0) + playing_count l)%nat.
Proof. unfold playing_count. rewrite filter_cons. by case_decide. Qed.

Lemma playing_count_delete (l : list CartItem) i c :
  l !! i = Some c →
  playing_count l =
  ((if decide (status c = playing) then 1 else 0)
   + playing_count (delete i l))%nat.
Proof.
  intros Hi. rewrite <- (take_drop_middle l i c Hi) at 1.
  rewrite delete_take_drop, !playing_count_app, playing_count_cons. lia.
Qed.

Lemma playing_count_splice_in i c (l : list CartItem) :
  playing_count (splice_in i c l) =
  ((if decide (status c = playing) then 1 else 0) + playing_count l)%nat.
Proof.
  unfold splice_in. rewrite playing_count_app, playing_count_cons.
  rewrite <- (take_drop i l) at 3. rewrite playing_count_app. lia.
Qed.

Lemma cartToInsert_playing j moved :
  status (cartToInsert j moved) = playing ↔ status moved = playing.
Proof.
  unfold cartToInsert. case_decide as E; [|done]. simpl.
  destruct E as [_ ->]. split; discriminate.
Qed.

(** Stopping or ending takes the first playing cart off the air. *)
Lemma playing_count_sinkPlaying prev :
  playing_count (sinkPlaying prev) = Nat.pred (playing_count prev).
Proof.
  unfold sinkPlaying.
  destruct (list_find _ prev) as [[i c]|] eqn:E.
  - apply list_find_Some in E as (Hi & Hc & _).
    rewrite playing_count_app, playing_count_cons.
    rewrite decide_False by (simpl; discriminate).
    rewrite (playing_count_delete prev i c Hi), decide_True by done.
    unfold playing_count at 2. simpl. lia.
  - apply list_find_None in E. unfold playing_count.
    assert (filter (λ c, status c = playing) prev = []) as ->; [|done].
    induction E as [|c l Hc _ IH]; [done|].
    by rewrite filter_cons_False.
Qed.

Lemma playing_count_moveCartWithinStack fromId toId prev :
  playing_count (CartStack.moveCartWithinStack fromId toId prev)
  = playing_count prev.
Proof.
  unfold CartStack.moveCartWithinStack. case_decide; [done|].
  destruct (list_find _ prev) as [[i c]|] eqn:E; [|done].
  apply list_find_Some in E as (Hi & _ & _).
  rewrite playing_count_splice_in, (playing_count_delete prev i c Hi).
  f_equal. repeat case_decide; try done;
    exfalso; rewrite cartToInsert_playing in *; done.
Qed.

(** After an activation the carts on air are those with the activated id. *)
Lemma playing_count_playCart cart prev :
  playing_count (playCart_updater cart prev) = occurrences (id cart) prev.
Proof.
  unfold playCart_updater.
  induction prev as [|c l IH]; [done|]. cbn [map].
  rewrite playing_count_cons, occurrences_cons, IH. f_equal.
  repeat case_decide; simpl in *; congruence.
Qed.

Lemma occurrences_NoDup k (l : list CartItem) :
  NoDup (map id l) → (occurrences k l ≤ 1)%nat.
Proof.
  induction l as [|c l IH]; [unfold occurrences; simpl; lia|].
  cbn [map]. intros [Hnotin Hnd]%NoDup_cons.
  rewrite occurrences_cons. case_decide as E; [|apply IH in Hnd; lia].
  assert (occurrences k l = 0%nat) as ->; [|lia].
  unfold occurrences.
  assert (filter (λ c0, id c0 = k) l = []) as ->; [|done].
  clear IH Hnd. induction l as [|c' l IH]; [done|].
  cbn [map] in Hnotin. apply not_elem_of_cons in Hnotin as [Hne Hnotin].
  rewrite filter_cons_False by congruence. by apply IH.
Qed.

(** C2, as the specification words it, fails.  From the initial registry,
    one file is dropped on stack A and one on stack B; the cart of stack A
    goes on air, which respects the bound; then the cart of stack B is
    started, and two carts are [playing]. *)
Lemma C2_counterexample :
  let st2 := addFilesToStack hostB "stack-b" [wavFile "b.wav"]
               (addFilesToStack hostA "stack-a" [wavFile "a.wav"]
                  initialState) in
  ∃ topA topB,
    head (carts_of st2 "stack-a") = Some topA ∧
    head (carts_of st2 "stack-b") = Some topB ∧
    let st3 := App.playCart "stack-a" PlayResolved topA st2 in
    let st4 := App.playCart "stack-b" PlayResolved topB st3 in
    (playing_total st3 ≤ 1)%nat ∧ ¬ (playing_total st4 ≤ 1)%nat.
Proof.
  eexists _, _. split; [reflexivity|]. split; [reflexivity|].
  vm_compute. split; [lia|]. intros H. inversion H as [|? H']. inversion H'.
Qed.

(** C2 (amended): the bound is kept per stack by activation, and over all
    stacks by every other transition.  In a stack whose ids are distinct,
    an activation leaves at most one cart [playing] and leaves every
    other stack as it was, so a cart on air in another stack stays on
    air.  Stopping, the end of playback and the moves within and across
    stacks never raise the number of [playing] carts of the registry; a
    move across stacks is taken from a source that is a key of the
    registry, or that is no inherited name, and then completes. *)
Theorem C2_playing_bounds :
  (∀ stackId cart (st : Registry),
      NoDup (map id (carts_of st stackId)) →
      let st' := App.playCart stackId PlayResolved cart st in
      (playing_count (carts_of st' stackId) ≤ 1)%nat ∧
      ∀ k, k ≠ stackId → carts_of st' k = carts_of st k) ∧
  (∀ stackId (st : Registry),
      (playing_total (App.stopCart stackId st) ≤ playing_total st)%nat ∧
      (playing_total (App.handleEnded stackId st) ≤ playing_total st)%nat) ∧
  (∀ stackId fromId toId (st : Registry),
      playing_total (App.moveCartWithinStack stackId fromId toId st)
      = playing_total st) ∧
  (∀ from to cartId targetId (st : Registry),
      (st !! from = None → from ∉ inheritedKeys) →
      ∃ st', moveCartAcrossStacks from to cartId targetId st = Next st' ∧
             playing_total st' = playing_total st).
Proof.
  split; [|split; [|split]].
  - intros stackId cart st Hnd st'. unfold st', App.playCart. split.
    + rewrite carts_of_setStackCarts_eq, playing_count_playCart.
      by apply occurrences_NoDup.
    + intros k Hk. by apply carts_of_setStackCarts_ne.
  - intros stackId st.
    assert (playing_total (setStackCarts stackId sinkPlaying st)
            ≤ playing_total st)%nat; [|done].
    pose proof (playing_total_setStackCarts st stackId sinkPlaying) as H.
    rewrite playing_count_sinkPlaying in H. lia.
  - intros stackId fromId toId st. unfold App.moveCartWithinStack.
    pose proof (playing_total_setStackCarts st stackId
                  (CartStack.moveCartWithinStack fromId toId)) as H.
    rewrite playing_count_moveCartWithinStack in H. lia.
  - intros from to cartId targetId st Hsrc. unfold moveCartAcrossStacks.
    case_decide as Hne; [by exists st|].
    destruct (sourceCarts st from) as [fromCarts|] eqn:Es.
    2:{ apply sourceCarts_None in Es as [Hkey Hin]. by destruct (Hsrc Hkey). }
    apply sourceCarts_Some in Es as ->.
    destruct (list_find _ (carts_of st from)) as [[i c]|] eqn:E;
      [|by exists st].
    apply list_find_Some in E as (Hi & _ & _).
    eexists. split; [reflexivity|].
    match goal with |- playing_total (<[to := ?nt]> (<[from := ?nf]> st)) = _ =>
      pose proof (playing_total_insert (<[from := nf]> st) to nt) as H2;
      pose proof (playing_total_insert st from nf) as H1
    end.
    rewrite carts_of_insert_ne in H2 by done.
    rewrite playing_count_splice_in in H2.
    rewrite (playing_count_delete _ i c Hi) in H1.
    assert ((if decide (status (cartToInsert
               (insertIndexOf targetId (carts_of st to)) c) = playing)
             then 1 else 0)
            = (if decide (status c = playing) then 1 else 0))%nat as Hs.
    { repeat case_decide; try done;
        exfalso; rewrite cartToInsert_playing in *; done. }
    rewrite Hs in H2. lia.
Qed.

Lemma C2_playing_bounds_witness :
  (playing_count
     (carts_of (App.playCart "stack-a" PlayResolved cartB
                  (<["stack-a" := [cartA; cartB]]> initialState))
               "stack-a") ≤ 1)%nat.
Proof.
  destruct C2_playing_bounds as [Hplay _].
  apply (Hplay "stack-a" cartB (<["stack-a" := [cartA; cartB]]> initialState)).
  apply (bool_decide_unpack _). vm_compute. exact I.
Defined.
End Playing.

(** ** The registry: the duration probe *)

Section Probe.
Import CartStack App.

Lemma onloadedmetadata_lookup stackId cartId d (st : Registry) k i :
  carts_of (onloadedmetadata stackId cartId d st) k !! i =
  (λ c, if decide (k = stackId ∧ id c = cartId) then with_duration d c
        else c) <$> carts_of st k !! i.
Proof.
  unfold onloadedmetadata. destruct (decide (stackId = k)) as [<-|Hne].
  - rewrite carts_of_insert_eq, map_fmap, list_lookup_fmap.
    destruct (carts_of st stackId !! i) as [c|]; [|done]. simpl.
    f_equal. destruct (decide (id c = cartId)) as [Hid|Hid].
    + by rewrite decide_True.
    + rewrite decide_False; [done|]. tauto.
  - rewrite carts_of_insert_ne by done.
    destruct (carts_of st k !! i) as [c|]; [|done]. simpl.
    rewrite decide_False; [done|]. intros [-> _]. by apply Hne.
Qed.

Lemma onloadedmetadata_absent stackId cartId d (st : Registry) :
  (∀ c, c ∈ carts_of st stackId → id c ≠ cartId) →
  ∀ k, carts_of (onloadedmetadata stackId cartId d st) k = carts_of st k.
Proof.
  intros Habs k. apply list_eq. intros i.
  rewrite onloadedmetadata_lookup.
  destruct (carts_of st k !! i) as [c|] eqn:E; [|done]. simpl.
  rewrite decide_False; [done|]. intros [-> Hid].
  apply list_elem_of_lookup_2 in E. by apply Habs in E.
Qed.

(** C9: when a duration probe completes, every stack keeps its length,
    and every cart its position, id, status and other fields; the carts
    of the probed stack whose id is the probed id get the new duration,
    and every other cart is untouched.  When no cart of that stack
    carries the id any more, each stack holds exactly the carts it held:
    nothing is put back, and a registry that has the stack is returned
    as it was. *)
Theorem C9_onloadedmetadata stackId cartId d (st : Registry) :
  let st' := onloadedmetadata stackId cartId d st in
  (∀ k, length (carts_of st' k) = length (carts_of st k)) ∧
  (∀ k i c, carts_of st k !! i = Some c →
     ∃ c', carts_of st' k !! i = Some c' ∧
       id c' = id c ∧ status c' = status c ∧ file c' = file c ∧
       url c' = url c ∧ title c' = title c ∧ addedAt c' = addedAt c ∧
       (k = stackId → id c = cartId → duration c' = d) ∧
       (¬ (k = stackId ∧ id c = cartId) → c' = c)) ∧
  ((∀ c, c ∈ carts_of st stackId → id c ≠ cartId) →
     (∀ k, carts_of st' k = carts_of st k) ∧
     (is_Some (st !! stackId) → st' = st)).
Proof.
  intros st'. split; [|split].
  - intros k. unfold st', onloadedmetadata.
    destruct (decide (stackId = k)) as [<-|Hne].
    + by rewrite carts_of_insert_eq, length_map.
    + by rewrite carts_of_insert_ne.
  - intros k i c Hc. unfold st'. rewrite onloadedmetadata_lookup, Hc. simpl.
    eexists. split; [reflexivity|].
    case_decide as E; simpl; repeat split; try done; tauto.
  - intros Habs. split; [by apply onloadedmetadata_absent|].
    intros [l Hl].
    pose proof (onloadedmetadata_absent stackId cartId d st Habs stackId)
      as Heq.
    unfold onloadedmetadata in *. rewrite carts_of_insert_eq in Heq.
    unfold st'. rewrite Heq. apply insert_id.
    unfold carts_of. by rewrite Hl.
Qed.

Lemma C9_onloadedmetadata_witness :
  ∃ c', carts_of (onloadedmetadata "stack-a" "id-b" (7 # 2)
                    (<["stack-a" := [cartA; cartB]]> initialState))
                 "stack-a" !! 1%nat = Some c' ∧
        status c' = queued ∧ duration c' = 7 # 2.
Proof.
  destruct (C9_onloadedmetadata "stack-a" "id-b" (7 # 2)
              (<["stack-a" := [cartA; cartB]]> initialState))
    as (_ & H & _).
  destruct (H "stack-a" 1%nat cartB eq_refl)
    as (c' & Hc' & _ & Hst & _ & _ & _ & _ & Hd & _).
  exists c'. split; [exact Hc'|]. split; [exact Hst|].
  apply Hd; reflexivity.
Defined.

Lemma newCarts_fresh h files c :
  c ∈ newCarts h files → duration c = 0%Q ∧ status c = queued.
Proof.
  unfold newCarts. intros [i Hi]%list_elem_of_lookup_1.
  rewrite list_lookup_imap in Hi.
  destruct (filter _ files !! i) as [f|]; [|done].
  simpl in Hi. simplify_eq. split; reflexivity.
Qed.

Lemma carts_of_addFilesToStack h stackId files (st : Registry) :
  carts_of (addFilesToStack h stackId files st) stackId
  = carts_of st stackId ++ newCarts h files.
Proof.
  unfold addFilesToStack. destruct (newCarts h files) as [|c l].
  - by rewrite app_nil_r.
  - apply carts_of_insert_eq.
Qed.

(** C10: the probe looks only into the stack the cart was added to.  A
    cart created by [addFilesToStack] and moved to another stack before
    its probe completes is missed by the callback: every stack holds the
    same carts after the callback as before it, and the moved cart is in
    its new stack with duration 0.  The ids of the stack are distinct, as
    [uuidv4] provides. *)
Theorem C10_probe_misses_moved_cart h from to files targetId d
    (st0 : Registry) cart :
  from ≠ to →
  cart ∈ newCarts h files →
  let st := addFilesToStack h from files st0 in
  NoDup (map id (carts_of st from)) →
  ∃ st1, moveCartAcrossStacks from to (id cart) targetId st = Next st1 ∧
  let st2 := onloadedmetadata from (id cart) d st1 in
  (∀ k, carts_of st2 k = carts_of st1 k) ∧
  ∃ j c, carts_of st2 to !! j = Some c ∧
         id c = id cart ∧ duration c = 0%Q.
Proof.
  intros Hne Hnew st Hnd.
  assert (Hin : cart ∈ carts_of st from).
  { unfold st. rewrite carts_of_addFilesToStack, elem_of_app. by right. }
  apply list_elem_of_lookup_1 in Hin as [i Hi].
  pose proof (list_find_unique_id _ _ _ Hnd Hi) as Hfind.
  destruct (moveCartAcrossStacks_found from to (id cart) targetId st i cart
              Hne Hfind) as (st1 & Hst1 & Hfrom & Hto & _).
  exists st1. split; [exact Hst1|]. intros st2.
  assert (Hall : ∀ k, carts_of st2 k = carts_of st1 k).
  { apply onloadedmetadata_absent. rewrite Hfrom.
    intros c Hc. by eapply delete_forgets_id. }
  split; [exact Hall|].
  set (j := insertIndexOf targetId (carts_of st to)) in *.
  exists j, (cartToInsert j cart). rewrite Hall, Hto.
  split; [apply splice_in_lookup_at, insertIndexOf_le|].
  pose proof (cartToInsert_fields j cart) as (Fid & _ & _ & _ & Fd & _).
  split; [exact Fid|]. rewrite Fd.
  exact (proj1 (newCarts_fresh _ _ _ Hnew)).
Qed.

Lemma C10_probe_misses_moved_cart_witness :
  let st := addFilesToStack hostA "stack-a" [wavFile "a.wav"] initialState in
  ∃ st1, moveCartAcrossStacks "stack-a" "stack-b" "id-a" None st = Next st1 ∧
  let st2 := onloadedmetadata "stack-a" "id-a" (7 # 2) st1 in
  ∃ j c, carts_of st2 "stack-b" !! j = Some c ∧
         id c = "id-a" ∧ duration c = 0%Q.
Proof.
  destruct (C10_probe_misses_moved_cart hostA "stack-a" "stack-b"
            [wavFile "a.wav"] None (7 # 2) initialState
            (mkCart "id-a" (wavFile "a.wav") "blob:a" "a.wav" 0 queued 0))
    as (st1 & Hst1 & _ & H).
  - discriminate.
  - apply (bool_decide_unpack _). vm_compute. exact I.
  - apply (bool_decide_unpack _). vm_compute. exact I.
  - exists st1. split; [exact Hst1|exact H].
Defined.
End Probe.

(** ** The buffer editor: region export and ripple delete *)

Section Regions.
Import AudioEditor.

Lemma zip_with_replicate_r {A B C} (f : A → B → C) (l : list A) (x : B) :
  zip_with f l (replicate (length l) x) = map (λ a, f a x) l.
Proof. induction l as [|a l IH]; [done|]. cbn. by rewrite IH. Qed.

(** *** Rounded differences *)

(** An integer below 2^53 in magnitude is a double. *)
Lemma roundInt_small (z : Z) :
  (Z.abs z < 2 ^ 53)%Z → roundInt z = Int z.
Proof.
  intros Hz. unfold roundInt. rewrite decide_True; [done|].
  destruct (decide (Z.abs z = 0)%Z) as [->|Hne]; [cbn; lia|].
  assert (Z.log2 (Z.abs z) < 53)%Z; [|lia].
  apply Z.log2_lt_pow2; lia.
Qed.

(** Rounding never brings a large integer below 2^53. *)
Lemma roundInt_large (z : Z) :
  (2 ^ 53 ≤ Z.abs z)%Z →
  roundInt z = Infinity (z <? 0)%Z ∨
  ∃ m, roundInt z = Int (Z.sgn z * m) ∧ (2 ^ 53 ≤ m)%Z.
Proof.
  intros Hz. unfold roundInt.
  set (a := Z.abs z) in *. set (e := (Z.log2 a - 52)%Z).
  assert (He : (1 ≤ e)%Z).
  { assert (53 ≤ Z.log2 a)%Z; [|lia]. apply Z.log2_le_pow2; lia. }
  rewrite decide_False by lia. cbn zeta.
  set (q := Z.shiftr a e).
  set (q' := if decide _ then q else (q + 1)%Z).
  destruct (decide (2 ^ 1024 ≤ q' * 2 ^ e)%Z); [by left|]. right.
  eexists. split; [reflexivity|].
  assert (Hq : (2 ^ 52 ≤ q)%Z).
  { unfold q. rewrite Z.shiftr_div_pow2 by lia.
    apply Z.div_le_lower_bound; [lia|].
    rewrite <- Z.pow_add_r by lia.
    replace (e + 52)%Z with (Z.log2 a) by lia.
    apply Z.log2_spec. lia. }
  assert (Hq' : (q ≤ q')%Z) by (unfold q'; case_decide; lia).
  assert (H2 : (2 ^ 1 ≤ 2 ^ e)%Z) by (apply Z.pow_le_mono_r; lia).
  nia.
Qed.

(** The two comparisons that the code makes on a difference see its sign,
    and its size against a frame count, as if it had not been rounded. *)
Lemma le_num_roundInt_0 (z : Z) :
  le_num (roundInt z) (Int 0) = bool_decide (z ≤ 0)%Z.
Proof.
  destruct (decide (Z.abs z < 2 ^ 53)%Z) as [Hs|Hl].
  - by rewrite roundInt_small.
  - destruct (roundInt_large z ltac:(lia)) as [-> | (m & -> & Hm)]; cbn.
    + destruct (Z.ltb_spec z 0).
      * by rewrite bool_decide_eq_true_2 by lia.
      * by rewrite bool_decide_eq_false_2 by lia.
    + apply bool_decide_ext. nia.
Qed.

Lemma le_num_Int_roundInt (n z : Z) :
  (0 ≤ n < 2 ^ 53)%Z →
  le_num (Int n) (roundInt z) = bool_decide (n ≤ z)%Z.
Proof.
  intros Hn. destruct (decide (Z.abs z < 2 ^ 53)%Z) as [Hs|Hl].
  - by rewrite roundInt_small.
  - destruct (roundInt_large z ltac:(lia)) as [-> | (m & -> & Hm)]; cbn.
    + destruct (Z.ltb_spec z 0); cbn.
      * by rewrite bool_decide_eq_false_2 by lia.
      * by rewrite bool_decide_eq_true_2 by lia.
    + apply bool_decide_ext. nia.
Qed.

(** [Math.floor] of a product of doubles is the floor of the rational
    number that the rounded product is. *)
Lemma Qfloor_scaled (a e : Z) :
  Qfloor (inject_Z a * 2 ^ e) = Z.shiftl a e.
Proof.
  destruct (Z_le_gt_dec 0 e) as [He|He].
  - rewrite Z.shiftl_mul_pow2 by lia.
    rewrite <- (Qfloor_Z (a * 2 ^ e)). apply Qfloor_comp.
    rewrite inject_Z_mult. rewrite (Zpower_Qpower 2 e He). reflexivity.
  - rewrite Z.shiftl_div_pow2 by lia.
    assert (Hp : (0 < 2 ^ (- e))%Z) by (apply Z.pow_pos_nonneg; lia).
    transitivity (Qfloor (a # Z.to_pos (2 ^ (- e)))).
    + apply Qfloor_comp.
      replace e with (- (- e))%Z at 1 by lia.
      rewrite Qpower_opp, <- (Zpower_Qpower 2 (- e)) by lia.
      unfold Qeq, Qmult, Qinv, inject_Z.
      destruct (2 ^ (- e))%Z eqn:E; try lia. cbn. lia.
    + unfold Qfloor. rewrite Z2Pos.id by lia. reflexivity.
Qed.

Lemma toSample_floor (seconds : float) (rate : Z) (x : Q) :
  valueOf (seconds * toNumber rate)%float = Some x →
  toSample seconds rate = Int (Qfloor x).
Proof.
  unfold valueOf, toSample, Math_floor.
  destruct (Prim2SF _) as [s|s| |s m e]; try done.
  - by intros [= <-].
  - intros [= <-]. by rewrite Qfloor_scaled.
Qed.

(** The double that holds a sample rate in use is that rate. *)
Lemma toNumber_commonRates :
  Forall (λ rate, ∃ x, valueOf (toNumber rate) = Some x ∧ x == inject_Z rate)
         commonRates.
Proof.
  repeat constructor;
    (eexists; split; [vm_compute; reflexivity | vm_compute; reflexivity]).
Qed.

(** What the doubles make of the times 0.7 s and 0.70005 s at 8000 Hz:
    both products round to the frame 5600. *)
Lemma toSample_rounded_product :
  toSample 0.7 8000 = Int 5600 ∧ toSample 0.70005 8000 = Int 5600 ∧
  toSample 0.9 8000 = Int 7200.
Proof. vm_compute. done. Qed.

(** The rounding of integers agrees with the rounding of the doubles of
    the library, at the ends of the ranges and across them. *)
Lemma roundInt_binary_normalize :
  let integers :=
    [ 0; 1; -1; 2 ^ 53 - 1; 2 ^ 53; 2 ^ 53 + 1; 2 ^ 53 + 2; 2 ^ 53 + 3;
      - (2 ^ 53 + 1); - (2 ^ 53 + 3); 2 ^ 54 + 2; 2 ^ 54 + 6; 2 ^ 84 + 2 ^ 31;
      3 * 2 ^ 700 + 1; 2 ^ 1023; 2 ^ 1024 - 2 ^ 970 - 1; 2 ^ 1024 - 2 ^ 970;
      2 ^ 1024; - 2 ^ 1024 ]%Z in
  map roundInt integers = map (λ z, Math_floor (toNumber z)) integers.
Proof. vm_compute. reflexivity. Qed.

(** *** The copy loop *)

(** The copy loop writes the positions 0, 1, ... in turn. *)
Lemma copyRegion_prefix channelData startSample n (new : list Sample) :
  (n ≤ length new)%nat →
  copyRegion channelData startSample n new
  = map (λ j, readSample channelData (plus startSample j)) (seq 0 n)
    ++ drop n new.
Proof.
  unfold copyRegion. induction n as [|n IH]; intros Hn; [done|].
  rewrite seq_S, foldl_app, IH by lia. cbn [foldl].
  rewrite map_app. cbn [map].
  destruct (new !! n) as [y|] eqn:E;
    [|apply lookup_ge_None in E; lia].
  rewrite (drop_S _ _ _ E).
  rewrite insert_app_r_alt; rewrite length_map, length_seq; [|lia].
  rewrite Nat.sub_diag. cbn. by rewrite <- app_assoc.
Qed.

Lemma copyRegion_full channelData startSample n (new : list Sample) :
  length new = n →
  copyRegion channelData startSample n new
  = map (λ j, readSample channelData (plus startSample j)) (seq 0 n).
Proof.
  intros Hn. rewrite copyRegion_prefix by lia.
  by rewrite drop_ge, app_nil_r by lia.
Qed.

(** Inside the channel the frames read are a slice of it. *)
Lemma read_slice (channelData : list Sample) (startSample : Z) (n : nat) :
  (0 ≤ startSample)%Z →
  (startSample + Z.of_nat n ≤ Z.of_nat (length channelData))%Z →
  map (λ j, readSample channelData (plus (Int startSample) j)) (seq 0 n)
  = take n (drop (Z.to_nat startSample) channelData).
Proof.
  intros H0 Hn. apply list_eq. intros j.
  rewrite map_fmap, list_lookup_fmap.
  destruct (decide (j < n)%nat) as [Hj|Hj].
  - rewrite lookup_seq_lt by done. rewrite lookup_take_lt by done.
    rewrite lookup_drop. simpl. unfold readSample.
    rewrite decide_False by lia.
    replace (Z.to_nat (startSample + Z.of_nat j))
      with (Z.to_nat startSample + j)%nat by lia.
    destruct (channelData !! _) as [y|] eqn:E; [done|].
    apply lookup_ge_None in E. lia.
  - rewrite lookup_seq_ge by lia. by rewrite lookup_take_ge by lia.
Qed.

(** A buffer of the engine, asked for again with a length below 2^32. *)
Lemma createBuffer_ok engine (b : AudioBuffer) (n : Z) :
  made_by engine b → (0 < n < 2 ^ 32)%Z →
  createBuffer engine (numberOfChannels b) (Int n) (sampleRate b)
  = Ok (mkBuffer (sampleRate b) (Z.to_nat n)
          (replicate (numberOfChannels b) (replicate (Z.to_nat n) (Num 0)))).
Proof.
  intros ([Hnc _] & Hmax & _ & Hrate) Hn. unfold createBuffer, toUint32.
  rewrite Z.mod_small by lia. rewrite decide_False; [done|lia].
Qed.

(** The region as the code sees it: no frame, or the frames it copies. *)
Lemma extractRegion_None engine (b : AudioBuffer) (region : Region)
    (startSample endSample : Z) :
  toSample (region_start region) (sampleRate b) = Int startSample →
  toSample (region_end region) (sampleRate b) = Int endSample →
  (endSample - startSample ≤ 0)%Z →
  extractRegion engine b region = Ok None.
Proof.
  intros Hs He Hlen. unfold extractRegion. rewrite Hs, He. cbn [minus].
  rewrite le_num_roundInt_0. by rewrite bool_decide_eq_true_2.
Qed.

Lemma extractRegion_eq engine (b : AudioBuffer) (region : Region)
    (startSample endSample : Z) :
  made_by engine b →
  toSample (region_start region) (sampleRate b) = Int startSample →
  toSample (region_end region) (sampleRate b) = Int endSample →
  let len := Z.to_nat (endSample - startSample) in
  (0 < endSample - startSample < 2 ^ 32)%Z →
  extractRegion engine b region =
  Ok (Some (mkBuffer (sampleRate b) len
    (map (λ channelData,
       map (λ j, readSample channelData (Int (startSample + Z.of_nat j)))
           (seq 0 len))
       (channels b)), len)).
Proof.
  intros Hb Hs He len Hlen. unfold extractRegion. rewrite Hs, He.
  cbn [minus]. rewrite le_num_roundInt_0.
  rewrite bool_decide_eq_false_2 by lia.
  rewrite roundInt_small by lia.
  rewrite (createBuffer_ok engine b _ Hb Hlen).
  cbn [mbind result_bind loopCount].
  rewrite decide_False by lia.
  cbn [mbind result_bind mret result_ret sampleRate buffer_length channels].
  fold len. do 4 f_equal. unfold numberOfChannels.
  rewrite zip_with_replicate_r. apply map_ext. intros channelData.
  apply copyRegion_full, length_replicate.
Qed.
End Regions.

(** ** The WAV writer *)

Section Wave.
Import AudioEditor.

Lemma W_bind_ok {A B} (m : W A) (f : A → W B) w a w' :
  m w = Ok (a, w') → (m ≫= f) w = f a w'.
Proof. intros H. unfold mbind, W_bind. by rewrite H. Qed.

Lemma store_advance_ok bytes out rest :
  (length bytes ≤ rest)%nat →
  (store bytes ;; advance (length bytes)) (written out rest)
  = Ok (tt, written (out ++ bytes) (rest - length bytes)).
Proof.
  intros Hn. unfold mbind, W_bind, store, advance, written. cbn.
  rewrite decide_True by (rewrite length_app, length_replicate; lia).
  cbn. do 2 f_equal. rewrite length_app. f_equal.
  replace rest with (length bytes + (rest - length bytes))%nat at 1 by lia.
  rewrite replicate_add.
  rewrite <- (Nat.add_0_r (length out)), list_inserts_app_r.
  rewrite list_inserts_0_r by (by rewrite length_replicate).
  by rewrite app_assoc.
Qed.

Lemma setUint32_ok x out rest :
  (4 ≤ rest)%nat →
  setUint32 x (written out rest) = Ok (tt, written (out ++ u32le x) (rest - 4)).
Proof. intros. by apply (store_advance_ok (u32le x)). Qed.

Lemma setUint16_ok x out rest :
  (2 ≤ rest)%nat →
  setUint16 x (written out rest) = Ok (tt, written (out ++ u16le x) (rest - 2)).
Proof. intros. by apply (store_advance_ok (u16le x)). Qed.

Lemma setInt16_ok s out rest :
  (2 ≤ rest)%nat →
  setInt16 s (written out rest)
  = Ok (tt, written (out ++ u16le (toInt16 s)) (rest - 2)).
Proof. intros. by apply (store_advance_ok (u16le (toInt16 s))). Qed.

Lemma writeFrame_ok chans offset : ∀ out rest,
  (2 * length chans ≤ rest)%nat →
  writeFrame chans offset (written out rest)
  = Ok (tt, written (out ++ frameBytes chans offset)
                    (rest - 2 * length chans)).
Proof.
  induction chans as [|channelData chans IH]; intros out rest Hrest.
  - cbn. unfold mret, W_ret, frameBytes. cbn.
    by rewrite app_nil_r, Nat.sub_0_r.
  - cbn [writeFrame]. cbn [length] in Hrest.
    erewrite W_bind_ok by (apply setInt16_ok; lia).
    rewrite IH by lia. unfold frameBytes. cbn [map concat length].
    do 3 f_equal; [by rewrite <- app_assoc | lia].
Qed.

Lemma frameBytes_length chans offset :
  length (frameBytes chans offset) = (2 * length chans)%nat.
Proof.
  unfold frameBytes. induction chans as [|c chans IH]; [done|].
  cbn [map concat length]. rewrite length_app, IH. cbn. lia.
Qed.

(** The loop writes one frame per round and stops when the buffer is
    full: [k] rounds of fuel are enough for [k] frames. *)
Lemma writeFrames_ok chans : ∀ k fuel offset out length_,
  (k ≤ fuel)%nat →
  length_ = (length out + k * (2 * length chans))%nat →
  writeFrames fuel length_ chans offset
              (written out (k * (2 * length chans)))
  = Ok (tt, written (out ++ concat (map (frameBytes chans) (seq offset k)))
                    0).
Proof.
  induction k as [|k IH]; intros fuel offset out length_ Hfuel HL.
  - destruct fuel; cbn; rewrite decide_False by lia;
      by rewrite app_nil_r.
  - destruct (decide (length chans = 0%nat)) as [Hc|Hc].
    + destruct chans; [|done]. cbn in HL.
      assert (E : concat (map (frameBytes []) (seq offset (S k))) = []).
      { generalize (seq offset (S k)). intros l.
        induction l as [|a l IHl]; [done|]. cbn. exact IHl. }
      rewrite E, app_nil_r.
      replace (S k * (2 * length (@nil (list Sample))))%nat with 0%nat
        by (cbn; lia).
      destruct fuel; cbn; by rewrite decide_False by lia.
    + destruct fuel as [|fuel]; [lia|].
      cbn [writeFrames]. cbn [written pos].
      rewrite decide_True by lia.
      erewrite W_bind_ok by (apply writeFrame_ok; lia).
      replace (S k * (2 * length chans) - 2 * length chans)%nat
        with (k * (2 * length chans))%nat by lia.
      rewrite (IH fuel (S offset) (out ++ frameBytes chans offset) length_);
        [|lia|rewrite length_app, frameBytes_length; lia].
      cbn [seq map concat]. by rewrite <- app_assoc.
Qed.

Lemma u32le_length x : length (u32le x) = 4%nat.
Proof. reflexivity. Qed.

Lemma u16le_length x : length (u16le x) = 2%nat.
Proof. reflexivity. Qed.

Lemma headerBytes_length abuffer len : length (headerBytes abuffer len) = 44%nat.
Proof. reflexivity. Qed.


Lemma writeHeader_ok abuffer len :
  let numOfChan := numberOfChannels abuffer in
  let d := (len * numOfChan * 2)%nat in
  writeHeader abuffer numOfChan (d + 44) (written [] (d + 44))
  = Ok (tt, written (headerBytes abuffer len) d).
Proof.
  intros numOfChan d. unfold writeHeader.
  repeat (erewrite W_bind_ok
            by (first [apply setUint32_ok | apply setUint16_ok]; lia)).
  erewrite W_bind_ok by reflexivity.
  rewrite setUint32_ok by lia.
  unfold written. cbn [pos view].
  rewrite !length_app, !u32le_length, !u16le_length. cbn [length Nat.add].
  replace (d + 44 - 4 - 4 - 4 - 4 - 4 - 2 - 2 - 4 - 4 - 2 - 2 - 4 - 4)%nat
    with d by lia.
  match goal with
  | |- Ok (_, {| view := ?out ++ _; pos := _ |}) = _ =>
      assert (out = headerBytes abuffer len) as ->; [|reflexivity]
  end.
  rewrite <- !app_assoc. cbn [app]. unfold headerBytes.
  fold numOfChan.
  repeat match goal with |- _ ++ _ = _ ++ _ => f_equal end;
    try reflexivity; f_equal; unfold d; lia.
Qed.

(** The bytes of the blob: the header, then the frames. *)
Lemma bufferToWave_eq abuffer len :
  bufferToWave abuffer len
  = Ok (headerBytes abuffer len ++ dataBytes abuffer len).
Proof.
  unfold bufferToWave.
  set (numOfChan := numberOfChannels abuffer).
  set (d := (len * numOfChan * 2)%nat).
  change (mkWriter (replicate (d + 44) 0%Z) 0) with (written [] (d + 44)).
  erewrite W_bind_ok by apply writeHeader_ok.
  replace d with (len * (2 * length (channels abuffer)))%nat
    by (unfold d, numOfChan, numberOfChannels; lia).
  replace (len * numberOfChannels abuffer * 2)%nat
    with (len * (2 * length (channels abuffer)))%nat
    by (unfold numberOfChannels; lia).
  rewrite (writeFrames_ok (channels abuffer) len (S len) 0
             (headerBytes abuffer len)
             (len * (2 * length (channels abuffer)) + 44));
    [|lia|rewrite headerBytes_length; lia].
  cbn. unfold mret, result_ret. by rewrite app_nil_r.
Qed.

Lemma le_combine_le_bytes n x :
  le_combine (le_bytes n x) = (x mod 2 ^ (8 * Z.of_nat n))%Z.
Proof.
  revert x. induction n as [|n IH]; intros x.
  - cbn. by rewrite Z.mod_1_r.
  - cbn [le_bytes le_combine]. rewrite IH.
    replace (8 * Z.of_nat (S n))%Z with (8 + 8 * Z.of_nat n)%Z by lia.
    rewrite Z.pow_add_r by lia. change (2 ^ 8)%Z with 256%Z.
    rewrite Z.rem_mul_r by lia. reflexivity.
Qed.


Lemma le_combine_u16le x : le_combine (u16le x) = (x mod 2 ^ 16)%Z.
Proof.
  unfold u16le. rewrite le_combine_le_bytes.
  change (8 * Z.of_nat 2)%Z with 16%Z. apply Z.mod_mod. lia.
Qed.

(** A list of chunks of [n] elements each: chunk [i] starts at [i * n]. *)
Lemma concat_chunk {A} (n : nat) (l : list (list A)) : ∀ i x,
  Forall (λ y, length y = n) l → l !! i = Some x →
  ∃ rest, drop (i * n) (concat l) = x ++ rest.
Proof.
  induction l as [|y l IH]; intros i x Hl Hi; [done|].
  apply Forall_cons in Hl as [Hy Hl]. destruct i as [|i].
  - injection Hi as ->. by exists (concat l).
  - cbn in Hi. destruct (IH i x Hl Hi) as [rest Hrest]. exists rest.
    cbn [concat]. rewrite <- Hrest.
    replace (S i * n)%nat with (length y + i * n)%nat by lia.
    by apply drop_app_add'.
Qed.

Lemma toInt16_range x : (- 2 ^ 15 ≤ toInt16 x < 2 ^ 15)%Z.
Proof.
  unfold toInt16. destruct x as [q|]; [|lia].
  pose proof (Z.mod_pos_bound (Qtrunc q) (2 ^ 16) ltac:(lia)).
  case_decide; lia.
Qed.

(** The 16-bit value is read back from its two bytes. *)
Lemma readInt16_u16le x rest :
  (- 2 ^ 15 ≤ x < 2 ^ 15)%Z → readInt16 (u16le x ++ rest) 0 = x.
Proof.
  intros Hx. unfold readInt16, readUint.
  rewrite drop_0, (take_app_length' _ _ 2) by done.
  rewrite le_combine_u16le.
  destruct (decide (0 ≤ x)%Z).
  - rewrite Z.mod_small by lia. rewrite decide_False; lia.
  - replace (x mod 2 ^ 16)%Z with (x + 2 ^ 16)%Z.
    + rewrite decide_True; lia.
    + symmetry. rewrite <- (Z.mod_add _ 1) by lia.
      rewrite Z.mod_small; lia.
Qed.

(** Where the sample of channel [i] and frame [offset] lies in the data. *)
Lemma dataBytes_sample abuffer len offset i channelData :
  (offset < len)%nat → channels abuffer !! i = Some channelData →
  ∃ rest,
    drop ((offset * numberOfChannels abuffer + i) * 2)
         (dataBytes abuffer len)
    = u16le (intSample (sampleAt channelData offset)) ++ rest.
Proof.
  intros Hoff Hi. unfold dataBytes, numberOfChannels.
  set (chans := channels abuffer) in *.
  destruct (concat_chunk (2 * length chans)
              (map (frameBytes chans) (seq 0 len)) offset
              (frameBytes chans offset)) as [rest1 H1].
  { apply Forall_forall. intros y. rewrite map_fmap.
    intros (o & -> & _)%list_elem_of_fmap. apply frameBytes_length. }
  { rewrite map_fmap, list_lookup_fmap, lookup_seq_lt by done. done. }
  destruct (concat_chunk 2
              (map (λ c, u16le (intSample (sampleAt c offset))) chans) i
              (u16le (intSample (sampleAt channelData offset))))
    as [rest2 H2].
  { apply Forall_forall. intros y. rewrite map_fmap.
    by intros (o & -> & _)%list_elem_of_fmap. }
  { by rewrite map_fmap, list_lookup_fmap, Hi. }
  fold (frameBytes chans offset) in H2.
  exists (rest2 ++ rest1).
  replace ((offset * length chans + i) * 2)%nat
    with (offset * (2 * length chans) + i * 2)%nat by lia.
  rewrite <- drop_drop, H1.
  rewrite drop_app_le.
  - by rewrite H2, <- app_assoc.
  - rewrite frameBytes_length. apply lookup_lt_Some in Hi. lia.
Qed.






End Wave.

(** ** Quantization *)

Section Quantization.
Import AudioEditor.

Lemma Qtrunc_scale_neg (n : Z) (d : positive) :
  (- Z.pos d ≤ n < 0)%Z →
  let t := Qtrunc ((n # d) * 32768) in
  (-32768 ≤ t ≤ 0)%Z ∧ (Z.abs (t * Z.pos d - 32768 * n) < Z.pos d)%Z.
Proof.
  intros Hn t. unfold t, Qtrunc. cbn [Qmult Qnum Qden].
  rewrite Pos.mul_1_r.
  pose proof (Z.quot_rem' (n * 32768) (Z.pos d)) as E.
  pose proof (Z.rem_bound_pos_neg (n * 32768) (Z.pos d) ltac:(lia) ltac:(lia)) as R.
  set (t0 := ((n * 32768) ÷ Z.pos d)%Z) in *.
  set (r := Z.rem (n * 32768) (Z.pos d)) in *.
  split; nia.
Qed.

Lemma Qtrunc_scale_pos (n : Z) (d : positive) :
  (0 ≤ n ≤ Z.pos d)%Z →
  let t := Qtrunc ((n # d) * 32767) in
  (0 ≤ t ≤ 32767)%Z ∧ (Z.abs (t * Z.pos d - 32767 * n) < Z.pos d)%Z.
Proof.
  intros Hn t. unfold t, Qtrunc. cbn [Qmult Qnum Qden].
  rewrite Pos.mul_1_r.
  pose proof (Z.quot_rem' (n * 32767) (Z.pos d)) as E.
  pose proof (Z.rem_bound_pos_pos (n * 32767) (Z.pos d) ltac:(lia) ltac:(lia)) as R.
  set (t0 := ((n * 32767) ÷ Z.pos d)%Z) in *.
  set (r := Z.rem (n * 32767) (Z.pos d)) in *.
  split; nia.
Qed.

Lemma clamp_Num q :
  ∃ c, clamp (Num q) = Num c ∧ (-1 <= c <= 1)%Q ∧
       ((-1 <= q <= 1)%Q → c == q) ∧ ((q < -1)%Q → c = (-1)%Q) ∧
       ((1 < q)%Q → c = 1%Q).
Proof.
  unfold clamp, Math_min, Math_max.
  destruct (Qlt_le_dec q 1) as [H1|H1]; destruct (Qlt_le_dec (-1) _) as [H2|H2];
    eexists; (split; [reflexivity|]);
    repeat split; intros; try reflexivity; try lra.
Qed.

Lemma toInt16_small x :
  (- 2 ^ 15 ≤ Qtrunc x < 2 ^ 15)%Z → toInt16 (Num x) = Qtrunc x.
Proof.
  intros H. unfold toInt16. destruct (decide (0 ≤ Qtrunc x)%Z).
  - rewrite Z.mod_small by lia. rewrite decide_False; lia.
  - replace (Qtrunc x mod 2 ^ 16)%Z with (Qtrunc x + 2 ^ 16)%Z.
    + rewrite decide_True; lia.
    + symmetry. rewrite <- (Z.mod_add _ 1) by lia.
      rewrite Z.mod_small; lia.
Qed.

Lemma Qabs_diff_lt (t n : Z) (k d : positive) :
  (Z.abs (t * Z.pos d - Z.pos k * n) < Z.pos d)%Z → (32767 <= k)%positive →
  (Qabs ((t # k) - (n # d)) < 1 # 32767)%Q.
Proof.
  intros H Hk. unfold Qlt, Qabs, Qminus, Qplus, Qopp. cbn [Qnum Qden].
  rewrite Pos2Z.inj_mul. nia.
Qed.

(** Cutting a rational to its integer part goes toward zero. *)
Lemma Qtrunc_toward_zero (x : Q) :
  ((0 <= x)%Q →
   (inject_Z (Qtrunc x) <= x)%Q ∧ (x < inject_Z (Qtrunc x) + 1)%Q) ∧
  ((x < 0)%Q →
   (inject_Z (Qtrunc x) - 1 < x)%Q ∧ (x <= inject_Z (Qtrunc x))%Q).
Proof.
  destruct x as [n d]. unfold Qtrunc. cbn [Qnum Qden].
  pose proof (Z.quot_rem' n (Z.pos d)) as E.
  pose proof (Z.rem_bound_pos_pos n (Z.pos d) ltac:(lia)) as Hpos.
  pose proof (Z.rem_bound_pos_neg n (Z.pos d) ltac:(lia)) as Hneg.
  set (t := (n ÷ Z.pos d)%Z) in *. set (r := Z.rem n (Z.pos d)) in *.
  unfold Qle, Qlt, Qplus, Qminus, Qplus, Qopp, inject_Z.
  cbn [Qnum Qden Pos.mul]. rewrite ?Z.mul_1_r.
  split; intros Hx.
  - specialize (Hpos ltac:(lia)). split; nia.
  - specialize (Hneg ltac:(lia)). split; nia.
Qed.

(** The 16-bit value of a sample, in terms of the sample alone. *)
Lemma intSample_clamped (q : Q) :
  ∃ c : Q,
    (-1 <= c <= 1)%Q ∧
    ((-1 <= q <= 1)%Q → c == q) ∧
    ((q < -1)%Q → c == -1) ∧
    ((1 < q)%Q → c == 1) ∧
    ((c < 0)%Q →
     (inject_Z (intSample (Num q)) - 1 < c * 32768)%Q ∧
     (c * 32768 <= inject_Z (intSample (Num q)))%Q) ∧
    ((0 <= c)%Q →
     (inject_Z (intSample (Num q)) <= c * 32767)%Q ∧
     (c * 32767 < inject_Z (intSample (Num q)) + 1)%Q) ∧
    (-32768 ≤ intSample (Num q) ≤ 32767)%Z ∧
    (Qabs (pcmToNumber (intSample (Num q)) - c) < 1 # 32767)%Q.
Proof.
  destruct (clamp_Num q) as (c & Hc & Hr & H1 & H2 & H3).
  exists c. split; [exact Hr|]. split; [exact H1|].
  split; [by intros ->%H2|]. split; [by intros ->%H3|].
  unfold intSample. rewrite Hc. unfold scale.
  destruct c as [n d]. destruct (Qlt_le_dec (n # d) 0) as [Hneg|Hpos].
  - assert (Hn : (- Z.pos d ≤ n < 0)%Z).
    { destruct Hr as [Hlo _]. unfold Qle, Qlt in *. cbn in *. lia. }
    destruct (Qtrunc_scale_neg n d Hn) as [Ht He].
    rewrite toInt16_small by lia.
    split.
    { intros _. apply Qtrunc_toward_zero.
      unfold Qlt in *. cbn in *. lia. }
    split; [intros Hc0; exfalso; lra|].
    split; [lia|].
    unfold pcmToNumber. case_decide.
    + apply Qabs_diff_lt; [exact He | lia].
    + apply Qabs_diff_lt; [|lia].
      assert (Qtrunc ((n # d) * 32768) = 0%Z) as E by lia.
      rewrite E in *. lia.
  - assert (Hn : (0 ≤ n ≤ Z.pos d)%Z).
    { destruct Hr as [_ Hhi]. unfold Qle, Qlt in *. cbn in *. lia. }
    destruct (Qtrunc_scale_pos n d Hn) as [Ht He].
    rewrite toInt16_small by lia.
    split; [intros Hc0; exfalso; lra|].
    split.
    { intros _. apply Qtrunc_toward_zero.
      unfold Qle in *. cbn in *. lia. }
    split; [lia|].
    unfold pcmToNumber. rewrite decide_False by lia.
    apply Qabs_diff_lt; [exact He | lia].
Qed.

(** What [bufferToWave] writes for the frame [offset] of channel [i]. *)
Lemma wave_sample abuffer len offset i channelData :
  (offset < len)%nat → channels abuffer !! i = Some channelData →
  readInt16 (headerBytes abuffer len ++ dataBytes abuffer len)
            (44 + (offset * numberOfChannels abuffer + i) * 2)
  = intSample (sampleAt channelData offset).
Proof.
  intros Hoff Hi.
  destruct (dataBytes_sample abuffer len offset i channelData Hoff Hi)
    as [rest Hrest].
  unfold readInt16, readUint.
  change (44 + (offset * numberOfChannels abuffer + i) * 2)%nat
    with (length (headerBytes abuffer len)
          + (offset * numberOfChannels abuffer + i) * 2)%nat.
  rewrite !drop_app_add' by done. rewrite Hrest.
  apply (readInt16_u16le _ rest), toInt16_range.
Qed.

(** C6: the 16-bit value [v] that [bufferToWave] writes for a sample [q],
    read back from the bytes of the file.  The sample is first clamped to
    [-1, 1]: inside the interval it is kept, below it becomes -1 and
    above it becomes 1.  The clamped value [c] is multiplied by 32768
    when it is negative and by 32767 otherwise, and [v] is the integer
    part of the product, cut toward zero: [v - 1 < c * 32768 <= v] for a
    negative [c], and [v <= c * 32767 < v + 1] otherwise.  [v] is a
    signed 16-bit value, and read back through the inverse of the scaling
    it differs from the clamped sample by less than 1/32767. *)
Theorem C6_quantization (abuffer : AudioBuffer) (len : nat) :
  ∃ bytes,
    bufferToWave abuffer len = Ok bytes ∧
    ∀ offset i channelData q,
      (offset < len)%nat → channels abuffer !! i = Some channelData →
      channelData !! offset = Some (Num q) →
      let v :=
        readInt16 bytes (44 + (offset * numberOfChannels abuffer + i) * 2) in
      ∃ c : Q,
        (-1 <= c <= 1)%Q ∧
        ((-1 <= q <= 1)%Q → c == q) ∧
        ((q < -1)%Q → c == -1) ∧
        ((1 < q)%Q → c == 1) ∧
        ((c < 0)%Q →
         (inject_Z v - 1 < c * 32768)%Q ∧ (c * 32768 <= inject_Z v)%Q) ∧
        ((0 <= c)%Q →
         (inject_Z v <= c * 32767)%Q ∧ (c * 32767 < inject_Z v + 1)%Q) ∧
        (-32768 ≤ v ≤ 32767)%Z ∧
        (Qabs (pcmToNumber v - c) < 1 # 32767)%Q.
Proof.
  exists (headerBytes abuffer len ++ dataBytes abuffer len).
  split; [apply bufferToWave_eq|].
  intros offset i channelData q Hoff Hi Hq v.
  unfold v. rewrite (wave_sample abuffer len offset i channelData Hoff Hi).
  unfold sampleAt. rewrite Hq. cbn [default].
  apply intSample_clamped.
Qed.

(** A sample that is not a number is written as 0. *)
Lemma intSample_NaN : intSample NaN = 0%Z.
Proof. reflexivity. Qed.

Lemma C6_quantization_witness :
  ∃ bytes,
    bufferToWave stereo10 10 = Ok bytes ∧
    (inject_Z (readInt16 bytes 44) <= (1 # 2) * 32767)%Q ∧
    ((1 # 2) * 32767 < inject_Z (readInt16 bytes 44) + 1)%Q ∧
    (-1 * 32768 <= inject_Z (readInt16 bytes 46))%Q.
Proof.
  destruct (C6_quantization stereo10 10) as (bytes & Hb & H).
  exists bytes. split; [exact Hb|].
  destruct (H 0%nat 0%nat (replicate 10 (Num (1 # 2))) (1 # 2))
    as (c & _ & Hin & _ & _ & _ & Hpos & _); [lia|reflexivity..|].
  destruct (H 0%nat 1%nat (replicate 10 (Num (-1))) (-1)%Q)
    as (c' & _ & Hin' & _ & _ & Hneg & _); [lia|reflexivity..|].
  assert (Hc : c == 1 # 2) by (apply Hin; split; discriminate).
  assert (Hc' : c' == -1) by (apply Hin'; split; discriminate).
  cbn zeta in Hpos, Hneg.
  change (44 + (0 * numberOfChannels stereo10 + 0) * 2)%nat
    with 44%nat in Hpos.
  change (44 + (0 * numberOfChannels stereo10 + 1) * 2)%nat
    with 46%nat in Hneg.
  destruct Hpos as [Hp1 Hp2]; [rewrite Hc; discriminate|].
  destruct Hneg as [_ Hn2]; [rewrite Hc'; reflexivity|].
  rewrite Hc in Hp1, Hp2. rewrite Hc' in Hn2.
  split; [exact Hp1|]. split; [exact Hp2|exact Hn2].
Defined.
End Quantization.

(** ** Ripple delete and the exported region *)

Section Ripple.
Import AudioEditor.

Lemma subarray_prefix {A} (a : list A) (s : Z) :
  (0 ≤ s ≤ Z.of_nat (length a))%Z →
  subarray a (Int 0) (Some (Int s)) = take (Z.to_nat s) a.
Proof.
  intros Hs. unfold subarray, relativeIndex.
  rewrite !decide_False by lia.
  rewrite (Z.min_l s) by lia. rewrite (Z.min_l 0) by lia.
  change (Z.to_nat 0) with 0%nat. by rewrite Nat.sub_0_r, drop_0.
Qed.

Lemma subarray_suffix {A} (a : list A) (e : Z) :
  (0 ≤ e ≤ Z.of_nat (length a))%Z →
  subarray a (Int e) None = drop (Z.to_nat e) a.
Proof.
  intros He. unfold subarray, relativeIndex.
  rewrite decide_False by lia. rewrite Z.min_l by lia.
  apply take_ge. rewrite length_drop. lia.
Qed.

Lemma typedSet_ok {A} (target source : list A) (offset : Z) :
  (0 ≤ offset)%Z →
  (offset + Z.of_nat (length source) ≤ Z.of_nat (length target))%Z →
  typedSet target source (Int offset)
  = Ok (list_inserts (Z.to_nat offset) source target).
Proof. intros. unfold typedSet. rewrite decide_False; [done|lia]. Qed.

Lemma list_inserts_front {A} (source : list A) (n : nat) (x : A) :
  (length source ≤ n)%nat →
  list_inserts 0 source (replicate n x)
  = source ++ replicate (n - length source) x.
Proof.
  intros Hn.
  replace n with (length source + (n - length source))%nat at 1 by lia.
  rewrite replicate_add. apply list_inserts_0_r.
  by rewrite length_replicate.
Qed.

Lemma list_inserts_after {A} (l1 source l3 : list A) (i : nat) :
  i = length l1 → length source = length l3 →
  list_inserts i source (l1 ++ l3) = l1 ++ source.
Proof.
  intros -> Hlen.
  rewrite <- (Nat.add_0_r (length l1)), list_inserts_app_r.
  rewrite <- (app_nil_r l3), list_inserts_0_r by done.
  by rewrite app_nil_r.
Qed.

Lemma rippleChannel_ok (channelData : list Sample) (s e : Z) (n : nat) :
  (0 ≤ s)%Z → (s ≤ e)%Z → (e ≤ Z.of_nat (length channelData))%Z →
  Z.of_nat n = (Z.of_nat (length channelData) - (e - s))%Z →
  rippleChannel (Int s) (Int e) channelData (replicate n (Num 0))
  = Ok (take (Z.to_nat s) channelData ++ drop (Z.to_nat e) channelData).
Proof.
  intros H0 Hse He Hn. unfold rippleChannel.
  rewrite subarray_prefix, subarray_suffix by lia.
  rewrite typedSet_ok
    by (rewrite ?length_replicate, ?length_take; lia).
  cbn [mbind result_bind]. change (Z.to_nat 0) with 0%nat.
  rewrite list_inserts_front by (rewrite length_take; lia).
  rewrite typedSet_ok
    by (rewrite ?length_app, ?length_replicate, ?length_take, ?length_drop;
        lia).
  rewrite list_inserts_after; [done| |];
    rewrite ?length_replicate, ?length_take, ?length_drop; lia.
Qed.

Lemma mapM_rippleChannel (chans : list (list Sample)) (s e : Z) (n : nat) :
  (0 ≤ s)%Z → (s ≤ e)%Z →
  Forall (λ ch, (e ≤ Z.of_nat (length ch))%Z ∧
                Z.of_nat n = (Z.of_nat (length ch) - (e - s))%Z) chans →
  mapM (λ '(channelData, newChannelData),
          rippleChannel (Int s) (Int e) channelData newChannelData)
       (zip chans (replicate (length chans) (replicate n (Num 0))))
  = Ok (map (λ ch, take (Z.to_nat s) ch ++ drop (Z.to_nat e) ch) chans).
Proof.
  intros H0 Hse. induction 1 as [|ch chans [He Hn] _ IH]; [done|].
  cbn [length replicate zip zip_with mapM map].
  rewrite rippleChannel_ok by done. cbn [mbind result_bind].
  rewrite IH. reflexivity.
Qed.

(** The three ways of a ripple delete, by the frames the region spans. *)
Lemma rippleDeleteSelection_Unchanged engine (b : AudioBuffer)
    (region : Region) (rs : list Region) (startSample endSample : Z) :
  toSample (region_start region) (sampleRate b) = Int startSample →
  toSample (region_end region) (sampleRate b) = Int endSample →
  (endSample - startSample ≤ 0)%Z →
  rippleDeleteSelection engine (Some (Some b)) (region :: rs) = Ok Unchanged.
Proof.
  intros Hs He Hcut. unfold rippleDeleteSelection. rewrite Hs, He.
  cbn [minus]. rewrite le_num_roundInt_0.
  by rewrite bool_decide_eq_true_2.
Qed.

Lemma rippleDeleteSelection_Emptied engine (b : AudioBuffer)
    (region : Region) (rs : list Region) (startSample endSample : Z) :
  made_by engine b →
  toSample (region_start region) (sampleRate b) = Int startSample →
  toSample (region_end region) (sampleRate b) = Int endSample →
  (0 < endSample - startSample)%Z →
  (Z.of_nat (buffer_length b) ≤ endSample - startSample)%Z →
  rippleDeleteSelection engine (Some (Some b)) (region :: rs) = Ok Emptied.
Proof.
  intros (_ & _ & Hlen & _) Hs He H0 Hcut.
  unfold rippleDeleteSelection. rewrite Hs, He. cbn [minus].
  rewrite le_num_roundInt_0, bool_decide_eq_false_2 by lia.
  rewrite le_num_Int_roundInt by lia.
  by rewrite bool_decide_eq_true_2.
Qed.

Lemma rippleDeleteSelection_eq engine (b : AudioBuffer) (region : Region)
    (rs : list Region) (startSample endSample : Z) :
  made_by engine b →
  toSample (region_start region) (sampleRate b) = Int startSample →
  toSample (region_end region) (sampleRate b) = Int endSample →
  let cutLength := (endSample - startSample)%Z in
  let newLength := Z.to_nat (Z.of_nat (buffer_length b) - cutLength) in
  (0 < cutLength < Z.of_nat (buffer_length b))%Z →
  (0 ≤ startSample)%Z → (endSample ≤ Z.of_nat (buffer_length b))%Z →
  let newBuffer :=
    mkBuffer (sampleRate b) newLength
      (map (λ channelData,
              take (Z.to_nat startSample) channelData
              ++ drop (Z.to_nat endSample) channelData)
           (channels b)) in
  rippleDeleteSelection engine (Some (Some b)) (region :: rs)
  = Ok (Replaced newBuffer
          (headerBytes newBuffer newLength ++ dataBytes newBuffer newLength)).
Proof.
  intros Hb Hs He cutLength newLength Hcut H0 Hend newBuffer.
  pose proof Hb as ([Hnc Hch] & _ & Hlen & _).
  unfold rippleDeleteSelection. rewrite Hs, He. cbn [minus].
  fold cutLength.
  rewrite le_num_roundInt_0, bool_decide_eq_false_2 by lia.
  rewrite le_num_Int_roundInt, bool_decide_eq_false_2 by lia.
  rewrite (roundInt_small cutLength) by lia. cbn [minus].
  rewrite roundInt_small by lia.
  rewrite (createBuffer_ok engine b _ Hb) by lia.
  cbn [mbind result_bind sampleRate buffer_length channels framesOf].
  fold newLength. unfold numberOfChannels at 1.
  rewrite (mapM_rippleChannel (channels b) startSample endSample);
    [|lia|lia|].
  2:{ eapply Forall_impl; [exact Hch|].
      intros ch Hl. cbn in Hl. rewrite Hl.
      unfold newLength, cutLength in *. lia. }
  cbn [mbind result_bind].
  rewrite bufferToWave_eq. reflexivity.
Qed.

(** C3: let [t1] and [t2] be the numbers that the doubles
    [region.start * sampleRate] and [region.end * sampleRate] are,
    [startSample] and [endSample] their floors, and
    [cutLength = endSample - startSample].  A ripple delete does nothing
    when [cutLength <= 0] and empties the editor when [cutLength] reaches
    the frame count.  Otherwise, for a
    region that lies inside the buffer, the editor gets a new buffer of
    [frameCount - cutLength] frames with the same sample rate and channel
    count, each channel being the frames [0, startSample) followed by the
    frames [endSample, frameCount) of its source, and loads it through its
    WAV encoding. *)
Theorem C3_rippleDeleteSelection engine (b : AudioBuffer) (region : Region)
    (rs : list Region) (t1 t2 : Q) :
  made_by engine b →
  valueOf (region_start region * toNumber (sampleRate b))%float = Some t1 →
  valueOf (region_end region * toNumber (sampleRate b))%float = Some t2 →
  let startSample := Qfloor t1 in
  let endSample := Qfloor t2 in
  let cutLength := (endSample - startSample)%Z in
  let frameCount := Z.of_nat (buffer_length b) in
  let outcome := rippleDeleteSelection engine (Some (Some b)) (region :: rs) in
  ((cutLength ≤ 0)%Z → outcome = Ok Unchanged) ∧
  ((0 < cutLength)%Z → (frameCount ≤ cutLength)%Z → outcome = Ok Emptied) ∧
  ((0 < cutLength < frameCount)%Z →
   (0 ≤ startSample)%Z → (endSample ≤ frameCount)%Z →
   ∃ newBuffer wavBlob,
     outcome = Ok (Replaced newBuffer wavBlob) ∧
     Z.of_nat (buffer_length newBuffer) = (frameCount - cutLength)%Z ∧
     sampleRate newBuffer = sampleRate b ∧
     numberOfChannels newBuffer = numberOfChannels b ∧
     wf_buffer newBuffer ∧
     channels newBuffer
     = map (λ channelData,
              take (Z.to_nat startSample) channelData
              ++ drop (Z.to_nat endSample) channelData)
           (channels b) ∧
     bufferToWave newBuffer (buffer_length newBuffer) = Ok wavBlob).
Proof.
  intros Hb Hs He startSample endSample cutLength frameCount outcome.
  apply toSample_floor in Hs, He. fold startSample endSample in Hs, He.
  split; [|split].
  - intros Hcut. by eapply rippleDeleteSelection_Unchanged.
  - intros H0 Hcut. by eapply rippleDeleteSelection_Emptied.
  - intros Hcut H0 Hend. eexists _, _.
    split; [by apply rippleDeleteSelection_eq|].
    destruct Hb as ([Hnc Hch] & _).
    cbn [sampleRate buffer_length channels].
    split; [unfold frameCount, cutLength in *; lia|]. split; [done|].
    unfold wf_buffer, numberOfChannels in *.
    cbn [sampleRate buffer_length channels]. rewrite length_map.
    split; [done|]. split.
    + split; [done|]. apply Forall_forall. intros ch. rewrite map_fmap.
      intros (c & -> & Hc)%list_elem_of_fmap.
      pose proof (proj1 (Forall_forall _ _) Hch c Hc) as Hl.
      cbn in Hl. rewrite length_app, length_take, length_drop.
      unfold frameCount, cutLength in *. lia.
    + split; [done|]. apply bufferToWave_eq.
Qed.

Lemma made_by_mono5 : made_by webAudio mono5.
Proof.
  split; [split; [unfold numberOfChannels; cbn; lia|cbn; repeat constructor]|].
  vm_compute. repeat split; try discriminate. lia.
Qed.

Lemma C3_rippleDeleteSelection_witness :
  ∃ newBuffer wavBlob,
    rippleDeleteSelection webAudio (Some (Some mono5)) [frames12]
    = Ok (Replaced newBuffer wavBlob) ∧
    channels newBuffer = [[Num 1; Num 4; Num 5]].
Proof.
  destruct (C3_rippleDeleteSelection webAudio mono5 frames12 [] _ _
              made_by_mono5 ltac:(vm_compute; reflexivity) ltac:(vm_compute; reflexivity))
    as (_ & _ & H).
  destruct H as (newBuffer & wavBlob & Hout & _ & _ & _ & _ & Hch & _).
  - vm_compute. split; reflexivity.
  - vm_compute. discriminate.
  - vm_compute. discriminate.
  - exists newBuffer, wavBlob. split; [exact Hout|].
    rewrite Hch. reflexivity.
Defined.

(** C4: [exportSelectionBlob] turns both ends of the region into frame
    indices with [Math.floor(seconds * sampleRate)]: with [t1] and [t2]
    the numbers that the doubles [region.start * sampleRate] and
    [region.end * sampleRate] are, the frames are [startSample = floor t1]
    and [endSample = floor t2].  When the region holds no frame the
    result is [null].  Otherwise, for a selection shorter than 2^32 frames, the
    blob is the WAV encoding of a new buffer that has exactly
    [endSample - startSample] frames, the channel count and the sample
    rate of the source, and whose frame [j] of each channel is what the
    source channel holds at [startSample + j]; for a region inside the
    buffer each channel is the slice [startSample, endSample) of its
    source. *)
Theorem C4_extractRegion engine (b : AudioBuffer) (region : Region)
    (rs : list Region) (t1 t2 : Q) :
  made_by engine b →
  valueOf (region_start region * toNumber (sampleRate b))%float = Some t1 →
  valueOf (region_end region * toNumber (sampleRate b))%float = Some t2 →
  let startSample := Qfloor t1 in
  let endSample := Qfloor t2 in
  let len := (endSample - startSample)%Z in
  let blob := exportSelectionBlob engine (Some (Some b)) (region :: rs) in
  ((len ≤ 0)%Z → blob = Ok None) ∧
  ((0 < len < 2 ^ 32)%Z →
     ∃ newBuffer wavBlob,
       extractRegion engine b region
       = Ok (Some (newBuffer, Z.to_nat len)) ∧
       bufferToWave newBuffer (Z.to_nat len) = Ok wavBlob ∧
       blob = Ok (Some wavBlob) ∧
       buffer_length newBuffer = Z.to_nat len ∧
       numberOfChannels newBuffer = numberOfChannels b ∧
       sampleRate newBuffer = sampleRate b ∧
       wf_buffer newBuffer ∧
       (∀ i channelData, channels b !! i = Some channelData →
          ∃ newChannelData,
            channels newBuffer !! i = Some newChannelData ∧
            (∀ j, (j < Z.to_nat len)%nat →
               newChannelData !! j
               = Some (readSample channelData
                         (Int (startSample + Z.of_nat j)))) ∧
            ((0 ≤ startSample)%Z →
             (endSample ≤ Z.of_nat (buffer_length b))%Z →
             newChannelData
             = take (Z.to_nat len) (drop (Z.to_nat startSample) channelData)))).
Proof.
  intros Hb Hs He startSample endSample len blob.
  apply toSample_floor in Hs, He. fold startSample endSample in Hs, He.
  split.
  - intros Hlen. unfold blob, exportSelectionBlob.
    by rewrite (extractRegion_None engine b region _ _ Hs He Hlen).
  - intros Hlen.
    pose proof (extractRegion_eq engine b region _ _ Hb Hs He Hlen) as E.
    cbn zeta in E. fold len in E.
    eexists _, _. split; [exact E|].
    split; [apply bufferToWave_eq|].
    split.
    { unfold blob, exportSelectionBlob. rewrite E. cbn [mbind result_bind].
      by rewrite bufferToWave_eq. }
    destruct Hb as ([Hnc Hch] & _).
    unfold wf_buffer, numberOfChannels in *.
    cbn [buffer_length sampleRate channels].
    split; [done|]. split; [apply length_map|].
    split; [done|]. split.
    { split; [by rewrite length_map|].
      apply Forall_forall. intros ch. rewrite map_fmap.
      intros (c & -> & _)%list_elem_of_fmap.
      by rewrite length_map, length_seq. }
    intros i channelData Hi. eexists.
    split; [by rewrite map_fmap, list_lookup_fmap, Hi|].
    split.
    + intros j Hj. rewrite map_fmap, list_lookup_fmap.
      by rewrite lookup_seq_lt.
    + intros H0 Hend. apply (read_slice channelData startSample); [done|].
      apply list_elem_of_lookup_2 in Hi.
      rewrite (proj1 (Forall_forall _ _) Hch _ Hi).
      subst len. lia.
Qed.

Lemma C4_extractRegion_witness :
  exportSelectionBlob webAudio (Some (Some mono5)) [noFrame] = Ok None ∧
  ∃ newBuffer wavBlob,
    extractRegion webAudio mono5 frames12 = Ok (Some (newBuffer, 2%nat)) ∧
    exportSelectionBlob webAudio (Some (Some mono5)) [frames12]
    = Ok (Some wavBlob) ∧
    bufferToWave newBuffer 2 = Ok wavBlob ∧
    channels newBuffer = [[Num 2; Num 3]].
Proof.
  split.
  - apply (C4_extractRegion webAudio mono5 noFrame [] _ _
             made_by_mono5 ltac:(vm_compute; reflexivity) ltac:(vm_compute; reflexivity)).
    vm_compute. discriminate.
  - destruct (C4_extractRegion webAudio mono5 frames12 [] _ _
                made_by_mono5 ltac:(vm_compute; reflexivity) ltac:(vm_compute; reflexivity))
      as [_ H].
    destruct (H ltac:(vm_compute; split; reflexivity))
      as (newBuffer & wavBlob & Hex & Hwav & Hblob & _).
    exists newBuffer, wavBlob. split; [exact Hex|]. split; [exact Hblob|].
    split; [exact Hwav|].
    vm_compute in Hex. by injection Hex as <-.
Defined.

(** A region that reaches past the end of the buffer: the first [set]
    call does not fit and raises [RangeError]. *)
Example ripple_outside_buffer :
  rippleDeleteSelection webAudio (Some (Some mono5)) [pastEnd]
  = Throw RangeError.
Proof. vm_compute. reflexivity. Qed.
End Ripple.

(** ** More of the cart queue *)

Section Queue.
Import CartStack App.

Lemma elem_of_splice {A} i (x y : A) (l : list A) :
  y ∈ splice_in i x l → y = x ∨ y ∈ l.
Proof.
  unfold splice_in. rewrite elem_of_app, elem_of_cons.
  intros [H | [-> | H]]; [right|by left|right].
  - by eapply subseteq_take.
  - by eapply subseteq_drop.
Qed.

Lemma ids_removeCart_sublist k (prev : list CartItem) :
  map id (removeCart k prev) `sublist_of` map id prev.
Proof.
  rewrite !map_fmap. apply fmap_sublist. unfold removeCart.
  apply sublist_filter.
Qed.

Lemma removeCart_absent k (prev : list CartItem) :
  (∀ c, c ∈ prev → id c ≠ k) → removeCart k prev = prev.
Proof.
  unfold removeCart. induction prev as [|c l IH]; intros H; [done|].
  rewrite filter_cons_True by (apply H; left).
  f_equal. apply IH. intros c' Hc'. apply H. by right.
Qed.

Lemma playing_count_sublist (l1 l2 : list CartItem) :
  l1 `sublist_of` l2 → (playing_count l1 ≤ playing_count l2)%nat.
Proof.
  induction 1 as [|x l1 l2 _ IH|x l1 l2 _ IH];
    rewrite ?playing_count_cons; [done|lia|].
  case_decide; lia.
Qed.

(** X1: the remove button drops exactly the carts with the given id and
    keeps the others in their order; it keeps the ids distinct, changes
    nothing when the id is absent, can be repeated without effect and
    never adds a playing cart. *)
Theorem X1_removeCart (k : string) (prev : list CartItem) :
  let next := removeCart k prev in
  (∀ c, c ∈ next ↔ c ∈ prev ∧ id c ≠ k) ∧
  next `sublist_of` prev ∧
  (NoDup (map id prev) → NoDup (map id next)) ∧
  ((∀ c, c ∈ prev → id c ≠ k) → next = prev) ∧
  removeCart k next = next ∧
  (playing_count next ≤ playing_count prev)%nat.
Proof.
  intros next. unfold next.
  split; [|split; [|split; [|split; [|split]]]].
  - intros c. unfold removeCart. rewrite list_elem_of_filter. tauto.
  - unfold removeCart. apply sublist_filter.
  - intros Hnd. eapply sublist_NoDup; [exact Hnd|].
    apply ids_removeCart_sublist.
  - apply removeCart_absent.
  - apply removeCart_absent. intros c. unfold removeCart.
    rewrite list_elem_of_filter. tauto.
  - apply playing_count_sublist. unfold removeCart. apply sublist_filter.
Qed.

Lemma X1_removeCart_witness :
  removeCart "id-a" [cartA; cartB] = [cartB] ∧
  removeCart "id-p" [cartA; cartB] = [cartA; cartB].
Proof.
  destruct (X1_removeCart "id-p" [cartA; cartB]) as (_ & _ & _ & H & _).
  split; [reflexivity|]. apply H.
  intros c Hc. apply (bool_decide_unpack _).
  revert c Hc. apply Forall_forall. apply (bool_decide_unpack _).
  vm_compute. exact I.
Defined.

(** X2: the active index is always an index of the stack.  There is none
    exactly when the stack is empty; it points at the first playing cart
    when a cart is playing, and at position 0 otherwise. *)
Theorem X2_getActiveIndex (l : list CartItem) :
  (getActiveIndex l = None ↔ l = []) ∧
  ∀ i, getActiveIndex l = Some i →
    ∃ c, l !! i = Some c ∧
      ((status c = playing ∧
        ∀ j c', l !! j = Some c' → (j < i)%nat → status c' ≠ playing) ∨
       (i = 0%nat ∧ ∀ c', c' ∈ l → status c' ≠ playing)).
Proof.
  unfold getActiveIndex, findIndexPlaying.
  destruct (list_find _ l) as [[i0 c0]|] eqn:E; cbn.
  - apply list_find_Some in E as (Hi & Hc & Hfirst). split.
    + split; [done|]. intros ->. done.
    + intros i [= <-]. exists c0. split; [done|]. left. split; [done|].
      intros j c' Hj Hlt. by eapply Hfirst.
  - apply list_find_None in E.
    pose proof (proj1 (Forall_forall _ _) E) as Hnone.
    destruct l as [|c l]; cbn.
    + split; [done|]. intros i. by rewrite decide_False by lia.
    + rewrite decide_True by lia. split; [split; done|].
      intros i [= <-]. exists c. split; [done|]. right. split; [done|].
      exact Hnone.
Qed.

Lemma X2_getActiveIndex_witness :
  ∃ c, [cartB; cartA] !! 1%nat = Some c ∧ status c = playing.
Proof.
  destruct (X2_getActiveIndex [cartB; cartA]) as [_ H].
  destruct (H 1%nat eq_refl) as (c & Hc & [[Hs _] | [Hz _]]).
  - exists c. by split.
  - discriminate Hz.
Defined.

(** X3: stopping and the end of playback keep every cart, by id, and
    take the first playing cart off the air: nothing changes without a
    playing cart; otherwise that cart goes to the tail as [played], the
    other carts keep their order, and one cart less is playing. *)
Theorem X3_sinkPlaying (prev : list CartItem) :
  let next := sinkPlaying prev in
  map id next ≡ₚ map id prev ∧
  ((∀ c, c ∈ prev → status c ≠ playing) → next = prev) ∧
  (∀ i c, prev !! i = Some c → status c = playing →
     (∀ j c', prev !! j = Some c' → (j < i)%nat → status c' ≠ playing) →
     last next = Some (with_status played c) ∧
     take (length prev - 1) next = delete i prev) ∧
  playing_count next = Nat.pred (playing_count prev).
Proof.
  intros next. split; [|split; [|split]].
  - unfold next, sinkPlaying.
    destruct (list_find _ prev) as [[i c]|] eqn:E; [|done].
    apply list_find_Some in E as (Hi & _ & _).
    rewrite !map_fmap, fmap_app. cbn.
    rewrite (delete_Permutation prev i c Hi) at 2. cbn.
    by rewrite <- Permutation_cons_append.
  - intros Hnone. unfold next, sinkPlaying.
    assert (list_find (λ c, status c = playing) prev = None) as ->; [|done].
    apply list_find_None, Forall_forall. exact Hnone.
  - intros i c Hi Hc Hfirst. unfold next, sinkPlaying.
    assert (list_find (λ c, status c = playing) prev = Some (i, c)) as ->.
    { apply list_find_Some. naive_solver. }
    split; [apply last_snoc|].
    apply take_app_length'. rewrite length_delete by eauto. lia.
  - apply playing_count_sinkPlaying.
Qed.

Lemma X3_sinkPlaying_witness :
  last (sinkPlaying [cartA; cartB]) = Some (with_status played cartA).
Proof.
  destruct (X3_sinkPlaying [cartA; cartB]) as (_ & _ & H & _).
  apply (H 0%nat cartA eq_refl eq_refl). intros j c' _ Hlt. lia.
Defined.

Lemma splice_in_lookup_after {A} i (x : A) (l : list A) :
  (i ≤ length l)%nat → splice_in i x l !! S i = l !! i.
Proof.
  intros Hi. unfold splice_in.
  rewrite lookup_app_r; rewrite length_take; [|lia].
  replace (S i - i `min` length l)%nat with 1%nat by lia.
  change ((x :: drop i l) !! 1%nat) with (drop i l !! 0%nat).
  rewrite lookup_drop. f_equal. lia.
Qed.

Lemma filter_take_drop {A} (P : A → Prop) `{!∀ x, Decision (P x)}
    (i : nat) (l : list A) :
  filter P (take i l) ++ filter P (drop i l) = filter P l.
Proof. by rewrite <- filter_app, take_drop. Qed.

Lemma moveCartWithinStack_found fromId toId (prev : list CartItem) i moved :
  Some fromId ≠ toId →
  list_find (λ c, id c = fromId) prev = Some (i, moved) →
  let rest := delete i prev in
  let j := insertIndexOf toId rest in
  CartStack.moveCartWithinStack fromId toId prev
  = splice_in j (cartToInsert j moved) rest.
Proof.
  intros Hne Hfind. unfold CartStack.moveCartWithinStack.
  by rewrite decide_False, Hfind by done.
Qed.

Lemma ids_splice_in j moved (rest : list CartItem) :
  map id (splice_in j (cartToInsert j moved) rest)
  ≡ₚ id moved :: map id rest.
Proof.
  unfold splice_in. rewrite !map_fmap, fmap_app, fmap_cons.
  rewrite <- Permutation_middle.
  rewrite (proj1 (cartToInsert_fields j moved)).
  by rewrite <- fmap_app, take_drop.
Qed.

(** Either a reorder changes nothing, or it takes the first cart with the
    id out and sets it down at the insertion index. *)
Lemma moveCartWithinStack_cases fromId toId (prev : list CartItem) :
  let next := CartStack.moveCartWithinStack fromId toId prev in
  next = prev ∨
  ∃ i moved, prev !! i = Some moved ∧ id moved = fromId ∧
    next = splice_in (insertIndexOf toId (delete i prev))
             (cartToInsert (insertIndexOf toId (delete i prev)) moved)
             (delete i prev).
Proof.
  cbn. unfold CartStack.moveCartWithinStack.
  case_decide; [by left|].
  destruct (list_find _ prev) as [[i moved]|] eqn:E; [|by left].
  apply list_find_Some in E as (Hi & Hid & _). right. eauto.
Qed.

Lemma ids_moveCartWithinStack fromId toId (prev : list CartItem) :
  map id (CartStack.moveCartWithinStack fromId toId prev) ≡ₚ map id prev.
Proof.
  destruct (moveCartWithinStack_cases fromId toId prev)
    as [-> | (i & moved & Hi & Hid & ->)]; [done|].
  rewrite ids_splice_in, !map_fmap, list_fmap_delete.
  symmetry. apply delete_Permutation.
  by rewrite list_lookup_fmap, Hi.
Qed.

(** X5: a reorder keeps every cart.  The ids of the stack are permuted
    (so distinct ids stay distinct), the carts other than the moved one
    keep their order and are untouched, and every cart of the result is a
    cart of the stack, or a [played] cart of the stack set to [queued];
    nothing changes when the cart is dropped on itself or is absent. *)
Theorem X5_moveCartWithinStack_keeps_carts fromId toId
    (prev : list CartItem) :
  let next := CartStack.moveCartWithinStack fromId toId prev in
  map id next ≡ₚ map id prev ∧
  (NoDup (map id prev) → NoDup (map id next)) ∧
  removeCart fromId next = removeCart fromId prev ∧
  (∀ c', c' ∈ next →
     c' ∈ prev ∨
     ∃ c, c ∈ prev ∧ status c = played ∧ c' = with_status queued c) ∧
  (Some fromId = toId → next = prev) ∧
  ((∀ c, c ∈ prev → id c ≠ fromId) → next = prev).
Proof.
  intros next.
  pose proof (moveCartWithinStack_cases fromId toId prev) as Hcases.
  cbn in Hcases. fold next in Hcases.
  pose proof (ids_moveCartWithinStack fromId toId prev) as Hperm.
  fold next in Hperm.
  split; [exact Hperm|]. split; [by rewrite Hperm|].
  split; [|split; [|split]].
  - destruct Hcases as [-> | (i & moved & Hi & Hid & ->)]; [done|].
    unfold removeCart, splice_in. rewrite filter_app, filter_cons_False.
    2:{ rewrite (proj1 (cartToInsert_fields _ moved)). tauto. }
    rewrite filter_take_drop, delete_take_drop, filter_app.
    rewrite <- (take_drop_middle prev i moved Hi) at 3.
    rewrite filter_app, filter_cons_False by tauto. done.
  - destruct Hcases as [-> | (i & moved & Hi & Hid & ->)]; [tauto|].
    intros c' [-> | Hc']%elem_of_splice.
    + unfold cartToInsert. apply list_elem_of_lookup_2 in Hi.
      case_decide as E; [right; exists moved; tauto | by left].
    + left. by eapply list_elem_of_delete_inv.
  - intros Heq. unfold next, CartStack.moveCartWithinStack.
    by rewrite decide_True.
  - intros Habs. unfold next, CartStack.moveCartWithinStack.
    case_decide; [done|].
    assert (list_find (λ c, id c = fromId) prev = None) as ->; [|done].
    apply list_find_None, Forall_forall. exact Habs.
Qed.

Lemma X5_moveCartWithinStack_keeps_carts_witness :
  CartStack.moveCartWithinStack "id-b" (Some "id-b") [cartA; cartB]
  = [cartA; cartB].
Proof.
  destruct (X5_moveCartWithinStack_keeps_carts "id-b" (Some "id-b")
              [cartA; cartB]) as (_ & _ & _ & _ & H & _).
  by apply H.
Defined.

Lemma elem_of_delete_other (prev : list CartItem) i moved c :
  prev !! i = Some moved → c ∈ prev → id c ≠ id moved → c ∈ delete i prev.
Proof.
  intros Hi Hc Hne. rewrite (delete_Permutation prev i moved Hi) in Hc.
  apply elem_of_cons in Hc as [-> | Hc]; [done|exact Hc].
Qed.

Lemma NoDup_ids_delete (prev : list CartItem) i :
  NoDup (map id prev) → NoDup (map id (delete i prev)).
Proof.
  intros Hnd. eapply sublist_NoDup; [exact Hnd|].
  rewrite !map_fmap. apply fmap_sublist, sublist_delete.
Qed.

Lemma findIndexId_unique t (l : list CartItem) j c :
  NoDup (map id l) → l !! j = Some c → id c = t → findIndexId t l = Some j.
Proof.
  intros Hnd Hj Hid. apply findIndexId_Some. exists c.
  split; [done|]. split; [done|].
  intros j' c' Hj' Hlt Hid'. rewrite map_fmap in Hnd.
  assert (j' = j); [|lia].
  apply (NoDup_lookup _ _ _ t Hnd).
  - by rewrite list_lookup_fmap, Hj'; cbn; rewrite Hid'.
  - by rewrite list_lookup_fmap, Hj; cbn; rewrite Hid.
Qed.

(** Where [insertIndexOf] points: at the tail for [null], for the empty
    string and for an id that no cart carries. *)
Lemma insertIndexOf_tail toId (l : list CartItem) :
  toId = None ∨ toId = Some "" ∨
  (∃ t, toId = Some t ∧ ∀ c, c ∈ l → id c ≠ t) →
  insertIndexOf toId l = length l.
Proof.
  unfold insertIndexOf. intros [-> | [-> | (t & -> & Habs)]]; [done..|].
  case_decide; [done|].
  by rewrite (proj2 (findIndexId_None t l) Habs).
Qed.

(** X4: where a reorder puts the cart, in a stack with distinct ids.  With
    no target ([null], the empty string, or an id that no cart carries)
    the cart becomes the last of the stack; with a target it stands
    immediately before the target cart. *)
Theorem X4_moveCartWithinStack_position fromId toId
    (prev : list CartItem) moved :
  NoDup (map id prev) → moved ∈ prev → id moved = fromId →
  Some fromId ≠ toId →
  let next := CartStack.moveCartWithinStack fromId toId prev in
  (toId = None ∨ toId = Some "" ∨
   (∃ t, toId = Some t ∧ ∀ c, c ∈ prev → id c ≠ t) →
   ∃ c, last next = Some c ∧ id c = fromId) ∧
  (∀ t target, toId = Some t → t ≠ "" → target ∈ prev → id target = t →
     ∃ p c, next !! p = Some c ∧ id c = fromId ∧
            next !! S p = Some target).
Proof.
  intros Hnd [i Hi]%list_elem_of_lookup_1 <- Hne next.
  pose proof (list_find_unique_id _ _ _ Hnd Hi) as Hfind.
  unfold next. rewrite (moveCartWithinStack_found _ _ _ _ _ Hne Hfind).
  split.
  - intros Htail. rewrite insertIndexOf_tail.
    + rewrite splice_in_end, last_snoc. eexists. split; [done|].
      apply cartToInsert_fields.
    + destruct Htail as [? | [? | (t & ? & Habs)]]; [tauto..|].
      right. right. exists t. split; [done|].
      intros c Hc. apply Habs. by eapply list_elem_of_delete_inv.
  - intros t target -> Ht Htarget Hid.
    assert (Hne' : id target ≠ id moved) by congruence.
    pose proof (elem_of_delete_other _ _ _ _ Hi Htarget Hne') as Hin.
    apply list_elem_of_lookup_1 in Hin as [j Hj].
    assert (Hidx : insertIndexOf (Some t) (delete i prev) = j).
    { unfold insertIndexOf. rewrite decide_False by done.
      by rewrite (findIndexId_unique t _ j target
                    (NoDup_ids_delete _ i Hnd) Hj Hid). }
    rewrite Hidx. pose proof (lookup_lt_Some _ _ _ Hj) as Hlt.
    exists j, (cartToInsert j moved).
    split; [apply splice_in_lookup_at; lia|].
    split; [apply cartToInsert_fields|].
    rewrite splice_in_lookup_after by lia. exact Hj.
Qed.

Lemma X4_moveCartWithinStack_position_witness :
  ∃ p c, CartStack.moveCartWithinStack "id-p" (Some "id-b")
           [cartA; cartB; cartP] !! p = Some c ∧ id c = "id-p" ∧
         CartStack.moveCartWithinStack "id-p" (Some "id-b")
           [cartA; cartB; cartP] !! S p = Some cartB.
Proof.
  assert (Hnd : NoDup (map id [cartA; cartB; cartP]))
    by (apply (bool_decide_unpack _); vm_compute; exact I).
  assert (Hin : cartP ∈ [cartA; cartB; cartP])
    by (apply (bool_decide_unpack _); vm_compute; exact I).
  assert (Hne : Some "id-p" ≠ Some "id-b") by discriminate.
  destruct (X4_moveCartWithinStack_position "id-p" (Some "id-b")
              [cartA; cartB; cartP] cartP Hnd Hin eq_refl Hne) as [_ H].
  apply (H "id-b" cartB eq_refl); [discriminate| |reflexivity].
  apply (bool_decide_unpack _). vm_compute. exact I.
Defined.

(** A cart that is not playing takes no playing cart from a stack and
    brings none to another. *)
Lemma moveCartAcrossStacks_playing_counts from to cartId targetId
    (st st' : Registry) :
  (∀ c, c ∈ carts_of st from → id c = cartId → status c ≠ playing) →
  moveCartAcrossStacks from to cartId targetId st = Next st' →
  ∀ k, playing_count (carts_of st' k) = playing_count (carts_of st k).
Proof.
  intros Hnp Hst' k.
  destruct (moveCartAcrossStacks_cases from to cartId targetId st)
    as [(_ & _ & E) | [E | (i & moved & Hne & Hfind)]];
    [congruence | by assert (st' = st) as -> by congruence |].
  destruct (moveCartAcrossStacks_found from to cartId targetId st i moved
              Hne Hfind) as (st1 & E & Hfrom & Hto & Hother).
  assert (st1 = st') as -> by congruence.
  apply list_find_Some in Hfind as (Hi & Hid & _).
  specialize (Hnp moved (list_elem_of_lookup_2 _ _ _ Hi) Hid).
  destruct (decide (k = to)) as [->|Hkto].
  - rewrite Hto, playing_count_splice_in.
    rewrite decide_False; [done|]. by rewrite cartToInsert_playing.
  - destruct (decide (k = from)) as [->|Hkfrom];
      [|by rewrite Hother].
    rewrite Hfrom, (playing_count_delete _ i moved Hi).
    by rewrite decide_False.
Qed.

(** A source that is a key of the registry, or no inherited name, lets
    the move complete. *)
Lemma moveCartAcrossStacks_completes from to cartId targetId
    (st : Registry) :
  (st !! from = None → from ∉ inheritedKeys) →
  ∃ st', moveCartAcrossStacks from to cartId targetId st = Next st'.
Proof.
  intros Hsrc.
  destruct (moveCartAcrossStacks_cases from to cartId targetId st)
    as [(_ & [Hkey Hin]%sourceCarts_None & _)
       | [E | (i & moved & Hne & Hfind)]].
  - by destruct (Hsrc Hkey).
  - by exists st.
  - destruct (moveCartAcrossStacks_found from to cartId targetId st i moved
                Hne Hfind) as (st' & E & _). by exists st'.
Qed.

(** X6: a cross-stack move keeps every cart.  From a source that is a key
    of the registry, or that is no inherited name, the move completes; the
    ids of the two stacks together are permuted and every other stack is
    untouched; when the cart that moves is not playing, every stack has as
    many playing carts as before. *)
Theorem X6_moveCartAcrossStacks_keeps_carts from to cartId targetId
    (st : Registry) :
  (st !! from = None → from ∉ inheritedKeys) →
  ∃ st', moveCartAcrossStacks from to cartId targetId st = Next st' ∧
    map id (carts_of st' from) ++ map id (carts_of st' to)
    ≡ₚ map id (carts_of st from) ++ map id (carts_of st to) ∧
    (∀ k, k ≠ from → k ≠ to → carts_of st' k = carts_of st k) ∧
    ((∀ c, c ∈ carts_of st from → id c = cartId → status c ≠ playing) →
     ∀ k, playing_count (carts_of st' k) = playing_count (carts_of st k)).
Proof.
  intros Hsrc.
  destruct (moveCartAcrossStacks_completes from to cartId targetId st Hsrc)
    as [st' Hst'].
  exists st'. split; [exact Hst'|].
  assert (Hplaying :
    (∀ c, c ∈ carts_of st from → id c = cartId → status c ≠ playing) →
    ∀ k, playing_count (carts_of st' k) = playing_count (carts_of st k)).
  { intros Hnp. by eapply moveCartAcrossStacks_playing_counts. }
  destruct (moveCartAcrossStacks_cases from to cartId targetId st)
    as [(_ & _ & E) | [E | (i & moved & Hne & Hfind)]]; [congruence | |].
  { by assert (st' = st) as -> by congruence. }
  destruct (moveCartAcrossStacks_found from to cartId targetId st i moved
              Hne Hfind) as (st1 & E & Hfrom & Hto & Hother).
  assert (st1 = st') as -> by congruence.
  split; [|by split].
  apply list_find_Some in Hfind as (Hi & Hid & _).
  rewrite Hfrom, Hto, ids_splice_in.
  rewrite <- Permutation_middle.
  rewrite (delete_Permutation (carts_of st from) i moved Hi) at 2.
  by rewrite !map_fmap, fmap_cons.
Qed.

Lemma X6_moveCartAcrossStacks_keeps_carts_witness :
  ∃ st', moveCartAcrossStacks "stack-a" "stack-b" "id-b" None
           (<["stack-a" := [cartA; cartB]]> initialState) = Next st' ∧
         playing_count (carts_of st' "stack-a") = 1%nat.
Proof.
  destruct (X6_moveCartAcrossStacks_keeps_carts "stack-a" "stack-b" "id-b"
              None (<["stack-a" := [cartA; cartB]]> initialState))
    as (st' & Hst' & _ & _ & H).
  - intros Hkey. vm_compute in Hkey. discriminate.
  - exists st'. split; [exact Hst'|].
    rewrite H; [reflexivity|].
    apply (Forall_forall (λ c, id c = "id-b" → status c ≠ playing)).
    apply (bool_decide_unpack _). vm_compute. exact I.
Defined.

(** C8: [moveCartAcrossStacks] gives the registry back as it is when both
    stack ids are equal, and, from a source that is a key of the registry
    or no inherited name, when no cart of the source carries [cartId].
    When a cart carries it, the move completes: the first such cart
    leaves the source stack and enters the target stack,
    ahead of the first cart whose id is [targetId], or at the tail when
    [targetId] is [null] or names no cart there; its id, file, url, title,
    duration and timestamp are carried over, and no other stack changes.
    A cart that was in the source stack and nowhere else is afterwards in
    the target stack and nowhere else. *)
Theorem C8_moveCartAcrossStacks from to cartId targetId
    (st : Registry) :
  let result := moveCartAcrossStacks from to cartId targetId st in
  (from = to → result = Next st) ∧
  ((st !! from = None → from ∉ inheritedKeys) →
   (∀ c, c ∈ carts_of st from → id c ≠ cartId) → result = Next st) ∧
  (from ≠ to → ∀ i moved,
     carts_of st from !! i = Some moved → id moved = cartId →
     (∀ i' c, carts_of st from !! i' = Some c → (i' < i)%nat →
              id c ≠ cartId) →
     ∃ st' ins,
       result = Next st' ∧
       (id ins = cartId ∧ file ins = file moved ∧ url ins = url moved ∧
        title ins = title moved ∧ duration ins = duration moved ∧
        addedAt ins = addedAt moved) ∧
       carts_of st' from = delete i (carts_of st from) ∧
       (∀ k, k ≠ from → k ≠ to → carts_of st' k = carts_of st k) ∧
       (targetId = None ∨
        (∃ t, targetId = Some t ∧ ∀ c, c ∈ carts_of st to → id c ≠ t) →
        carts_of st' to = carts_of st to ++ [ins]) ∧
       (∀ t j tc, targetId = Some t → t ≠ "" →
          carts_of st to !! j = Some tc → id tc = t →
          (∀ j' c, carts_of st to !! j' = Some c → (j' < j)%nat →
                   id c ≠ t) →
          carts_of st' to =
            take j (carts_of st to) ++ ins :: drop j (carts_of st to)) ∧
       ((∀ k, occurrences cartId (carts_of st k) =
              if decide (k = from) then 1%nat else 0%nat) →
        ∀ k, occurrences cartId (carts_of st' k) =
             if decide (k = to) then 1%nat else 0%nat)).
Proof.
  intros result. split; [|split].
  - intros Heq. unfold result, moveCartAcrossStacks. by rewrite decide_True.
  - intros Hsrc Hnone. unfold result.
    destruct (moveCartAcrossStacks_cases from to cartId targetId st)
      as [(_ & [Hkey Hin]%sourceCarts_None & _)
         | [E | (i & moved & _ & Hfind)]]; [by destruct (Hsrc Hkey)|done|].
    apply list_find_Some in Hfind as (Hi & Hid & _).
    destruct (Hnone moved (list_elem_of_lookup_2 _ _ _ Hi) Hid).
  - intros Hne i moved Hi Hid Hfirst.
    assert (Hfind : list_find (λ c, id c = cartId) (carts_of st from)
                    = Some (i, moved)).
    { apply list_find_Some. naive_solver. }
    destruct (moveCartAcrossStacks_found from to cartId targetId st i moved
                Hne Hfind) as (st' & Hst' & Hfrom & Hto & Hother).
    set (j := insertIndexOf targetId (carts_of st to)) in *.
    exists st', (cartToInsert j moved).
    pose proof (cartToInsert_fields j moved) as (F1 & F2 & F3 & F4 & F5 & F6).
    split; [exact Hst'|].
    split; [rewrite <- Hid; done|].
    split; [done|]. split; [done|]. split; [|split].
    + intros Htail. rewrite Hto.
      assert (j = length (carts_of st to)) as ->; [|apply splice_in_end].
      unfold j, insertIndexOf.
      destruct Htail as [-> | (t & -> & Hnot)]; [done|].
      case_decide; [done|].
      by rewrite (proj2 (findIndexId_None t _) Hnot).
    + intros t j0 tc -> Ht Hj0 Htc Hj0first. rewrite Hto.
      assert (j = j0) as ->; [|done].
      unfold j, insertIndexOf. rewrite decide_False by done.
      assert (findIndexId t (carts_of st to) = Some j0) as ->; [|done].
      apply findIndexId_Some. naive_solver.
    + intros Hocc k.
      destruct (decide (k = to)) as [->|Hkto].
      * rewrite Hto, occurrences_splice_in, F1, decide_True by done.
        rewrite Hocc. by rewrite decide_False by done.
      * destruct (decide (k = from)) as [->|Hkfrom].
        -- rewrite Hfrom.
           pose proof (occurrences_delete cartId _ _ _ Hi Hid) as Hd.
           rewrite Hocc, decide_True in Hd by done. lia.
        -- rewrite Hother by done. rewrite Hocc.
           by rewrite decide_False by done.
Qed.

Lemma C8_moveCartAcrossStacks_witness :
  let st : Registry := <["stack-a" := [cartB; cartP]]> initialState in
  ∃ st' ins,
    moveCartAcrossStacks "stack-a" "stack-b" "id-b" None st = Next st' ∧
    id ins = "id-b" ∧
    carts_of st' "stack-a" = delete 0%nat (carts_of st "stack-a") ∧
    carts_of st' "stack-b" = carts_of st "stack-b" ++ [ins].
Proof.
  intros st.
  destruct (C8_moveCartAcrossStacks "stack-a" "stack-b" "id-b" None
              st) as (_ & _ & H).
  assert (Hne : "stack-a" ≠ "stack-b") by discriminate.
  assert (Hi : carts_of st "stack-a" !! 0%nat = Some cartB)
    by (vm_compute; reflexivity).
  assert (Hfirst : ∀ i' c, carts_of st "stack-a" !! i' = Some c →
                           (i' < 0)%nat → id c ≠ "id-b")
    by (intros; lia).
  destruct (H Hne 0%nat cartB Hi eq_refl Hfirst)
    as (st' & ins & Hst' & (Hid & _) & Hfrom & _ & Htail & _).
  exists st', ins. split; [exact Hst'|]. split; [exact Hid|].
  split; [exact Hfrom|]. apply Htail. by left.
Defined.
End Queue.

(** ** Intake, the deck and the title editor *)

Section Ingest.
Import CartStack App.

Lemma newCarts_lookup h files k c :
  newCarts h files !! k = Some c →
  ∃ f, filter (λ f, isAudio f = true) files !! k = Some f ∧
       c = mkCart (uuidv4 h k) f (createObjectURL h k f) (file_name f) 0
             queued (now h k).
Proof.
  unfold newCarts. rewrite list_lookup_imap.
  destruct (filter _ files !! k) as [f|]; [|done].
  cbn. intros [= <-]. eauto.
Qed.

Lemma newCarts_fmap {B} (g : CartItem → B) (g' : File → B) h files :
  (∀ k f, g (mkCart (uuidv4 h k) f (createObjectURL h k f) (file_name f) 0
               queued (now h k)) = g' f) →
  map g (newCarts h files) = map g' (filter (λ f, isAudio f = true) files).
Proof.
  intros Hg. rewrite !map_fmap. apply list_eq. intros k.
  unfold newCarts. rewrite !list_lookup_fmap, list_lookup_imap.
  destruct (filter _ files !! k) as [f|]; [|done]. cbn. by rewrite Hg.
Qed.

Lemma playing_count_quiet (l : list CartItem) :
  playing_count l = 0%nat ↔ ∀ c, c ∈ l → status c ≠ playing.
Proof.
  induction l as [|c l IH]; [split; [by inversion 2|done]|].
  rewrite playing_count_cons. split.
  - intros H c' [-> | Hc']%elem_of_cons.
    + case_decide; [lia|done].
    + apply IH; [case_decide; lia|done].
  - intros H. rewrite decide_False by (apply H; left).
    apply IH. intros c' Hc'. apply H. by right.
Qed.

(** X7: dropping files on a stack appends one cart per audio file, in
    the order of the files, behind the carts the stack holds; each new
    cart is [queued] with duration 0, titled by its file name and
    identified by the id drawn for it.  Files of another type are left out,
    no other stack changes, no cart starts playing, and without an audio
    file the registry is returned as it is. *)
Theorem X7_addFilesToStack h stackId files (st : Registry) :
  let st' := addFilesToStack h stackId files st in
  let audioFiles := filter (λ f, isAudio f = true) files in
  ∃ new,
    carts_of st' stackId = carts_of st stackId ++ new ∧
    map file new = audioFiles ∧
    map title new = map file_name audioFiles ∧
    (∀ k c, new !! k = Some c →
       id c = uuidv4 h k ∧ status c = queued ∧ duration c = 0%Q) ∧
    (∀ k, k ≠ stackId → carts_of st' k = carts_of st k) ∧
    playing_total st' = playing_total st ∧
    (audioFiles = [] → st' = st).
Proof.
  intros st' audioFiles. exists (newCarts h files).
  assert (Hquiet : playing_count (newCarts h files) = 0%nat).
  { apply playing_count_quiet. intros c [k Hk]%list_elem_of_lookup_1.
    apply newCarts_lookup in Hk as (f & _ & ->). discriminate. }
  split; [apply carts_of_addFilesToStack|].
  split.
  { rewrite (newCarts_fmap file (λ f, f)) by done.
    by rewrite map_fmap, list_fmap_id. }
  split; [by apply newCarts_fmap|].
  split.
  { intros k c Hk. apply newCarts_lookup in Hk as (f & _ & ->). done. }
  unfold st', addFilesToStack.
  destruct (newCarts h files) as [|c new] eqn:E.
  - split; [done|]. split; [done|]. done.
  - split; [intros k Hk; by apply carts_of_insert_ne|].
    split.
    + pose proof (playing_total_insert st stackId
                    (carts_of st stackId ++ c :: new)) as H.
      rewrite playing_count_app, Hquiet in H. lia.
    + intros Hnil. exfalso. unfold newCarts in E. fold audioFiles in E.
      rewrite Hnil in E. discriminate E.
Qed.
End Ingest.

Section DeckFacts.
Import CartStack App.

Lemma X7_addFilesToStack_witness :
  ∃ new,
    carts_of (addFilesToStack hostA "stack-a"
                [mkFile "notes.txt" "text/plain"; wavFile "a.wav"]
                initialState) "stack-a" = new ∧
    map title new = ["a.wav"].
Proof.
  destruct (X7_addFilesToStack hostA "stack-a"
              [mkFile "notes.txt" "text/plain"; wavFile "a.wav"]
              initialState) as (new & Hc & _ & Ht & _).
  exists new. split; [exact Hc|exact Ht].
Defined.

Lemma ids_playCart_updater cart (l : list CartItem) :
  map id (playCart_updater cart l) = map id l.
Proof.
  unfold playCart_updater. rewrite map_map. apply map_ext.
  intros c. by repeat case_decide.
Qed.

Lemma ids_sinkPlaying (l : list CartItem) :
  map id (sinkPlaying l) ≡ₚ map id l.
Proof.
  unfold sinkPlaying.
  destruct (list_find _ l) as [[i c]|] eqn:E; [|done].
  apply list_find_Some in E as (Hi & _ & _).
  rewrite !map_fmap, fmap_app. cbn.
  rewrite (delete_Permutation l i c Hi) at 2. cbn.
  by rewrite <- Permutation_cons_append.
Qed.

Lemma ids_requeueCart k (l : list CartItem) :
  map id (requeueCart k l) = map id l.
Proof.
  unfold requeueCart. rewrite map_map. apply map_ext.
  intros c. by case_decide.
Qed.

Lemma playing_count_requeueCart k (l : list CartItem) :
  (playing_count (requeueCart k l) ≤ playing_count l)%nat.
Proof.
  unfold requeueCart. induction l as [|c l IH]; [done|]. cbn [map].
  rewrite !playing_count_cons.
  repeat case_decide; cbn in *; try lia; congruence.
Qed.

(** Activation in a stack where no other cart is playing changes the
    activated cart only. *)
Lemma playCart_updater_head top (rest : list CartItem) :
  (∀ c, c ∈ rest → id c ≠ id top ∧ status c ≠ playing) →
  playCart_updater top (top :: rest) = with_status playing top :: rest.
Proof.
  intros H. unfold playCart_updater. cbn [map].
  rewrite decide_True by done. f_equal.
  induction rest as [|c rest IH]; [done|]. cbn [map].
  destruct (H c) as [Hid Hst]; [left|].
  rewrite !decide_False by done. f_equal.
  apply IH. intros c' Hc'. apply H. by right.
Qed.

Lemma sinkPlaying_head c (rest : list CartItem) :
  status c = playing →
  sinkPlaying (c :: rest) = rest ++ [with_status played c].
Proof.
  intros Hc. unfold sinkPlaying.
  assert (list_find (λ c, status c = playing) (c :: rest) = Some (0%nat, c))
    as ->; [|done].
  apply list_find_Some. split; [done|]. split; [done|]. intros; lia.
Qed.

(** X8: two presses of the hotkey play the top cart and put it away.
    In a stack with distinct ids where no cart below the top is playing,
    the first press marks the top cart [playing], whatever its status was,
    and changes nothing else; the second press stops it, and the stack is
    the other carts in their order followed by the top cart, [played]. *)
Theorem X8_hotkey_twice (topCart : CartItem) (rest : list CartItem) (t : Q) :
  NoDup (map id (topCart :: rest)) →
  (∀ c, c ∈ rest → status c ≠ playing) →
  let d1 := handleKeyDown PlayResolved (mkDeck false t (topCart :: rest)) in
  let d2 := handleKeyDown PlayResolved d1 in
  isPlaying d1 = true ∧
  carts d1 = with_status playing topCart :: rest ∧
  isPlaying d2 = false ∧
  carts d2 = rest ++ [with_status played topCart].
Proof.
  intros Hnd Hquiet d1 d2.
  assert (H1 : carts d1 = with_status playing topCart :: rest).
  { cbn. apply playCart_updater_head. intros c Hc.
    split; [|by apply Hquiet].
    cbn [map] in Hnd. apply NoDup_cons in Hnd as [Hnotin _].
    intros Heq. apply Hnotin. rewrite <- Heq, map_fmap.
    by apply list_elem_of_fmap_2. }
  split; [done|]. split; [exact H1|].
  unfold d2, handleKeyDown. change (isPlaying d1) with true.
  cbn [stopCartOnDeck isPlaying carts]. split; [done|].
  rewrite H1. by rewrite sinkPlaying_head.
Qed.

Lemma X8_hotkey_twice_witness :
  carts (handleKeyDown PlayResolved
           (handleKeyDown PlayResolved (mkDeck false 0 [cartP; cartB])))
  = [cartB; with_status played cartP].
Proof.
  refine (proj2 (proj2 (proj2
    (X8_hotkey_twice cartP [cartB] 0 _ _)))).
  - apply (bool_decide_unpack _). vm_compute. exact I.
  - apply (Forall_forall (λ c, status c ≠ playing)).
    apply (bool_decide_unpack _). vm_compute. exact I.
Defined.

(** X9: what the playback handlers keep true of a stack: the ids are
    distinct, at most one cart is playing, and none is while [isPlaying]
    is false.  A press of the hotkey keeps it, however [audio.play()]
    ends, and so do the end of playback, the removal of a cart, a reorder
    and a requeue. *)
Theorem X9_deck_invariant (a : Playback) (d : Deck) :
  deck_ok d →
  deck_ok (handleKeyDown a d) ∧
  deck_ok (handleEndedOnDeck d) ∧
  ∀ k toId,
    deck_ok (mkDeck (isPlaying d) (currentTime d) (removeCart k (carts d))) ∧
    deck_ok (mkDeck (isPlaying d) (currentTime d)
               (CartStack.moveCartWithinStack k toId (carts d))) ∧
    deck_ok (mkDeck (isPlaying d) (currentTime d) (requeueCart k (carts d))).
Proof.
  intros Hok. pose proof Hok as (Hnd & Hone & Hoff).
  assert (Hsink : deck_ok (mkDeck false 0 (sinkPlaying (carts d)))).
  { unfold deck_ok. cbn [carts isPlaying]. split; [|split].
    - by rewrite ids_sinkPlaying.
    - rewrite playing_count_sinkPlaying. lia.
    - intros _. rewrite playing_count_sinkPlaying. lia. }
  split; [|split; [exact Hsink|]].
  - unfold handleKeyDown. destruct (isPlaying d) eqn:Ep.
    + destruct a; cbn [stopCartOnDeck]; [exact Hok|exact Hsink..].
    + destruct (carts d) as [|topCart rest] eqn:Ec; [exact Hok|].
      destruct a; cbn [playCartOnDeck]; [exact Hok| |].
      * unfold deck_ok. cbn [carts isPlaying]. rewrite Ec, Ep.
        split; [done|]. split; [done|]. exact Hoff.
      * unfold deck_ok. cbn [carts isPlaying]. rewrite Ec.
        split; [by rewrite ids_playCart_updater|].
        split; [|done].
        rewrite playing_count_playCart. by apply occurrences_NoDup.
  - intros k toId. unfold deck_ok. cbn [carts isPlaying].
    pose proof (playing_count_sublist (removeCart k (carts d)) (carts d)
                  (sublist_filter _ _)) as Hrm.
    pose proof (playing_count_requeueCart k (carts d)) as Hrq.
    rewrite playing_count_moveCartWithinStack, ids_moveCartWithinStack,
      ids_requeueCart.
    repeat split; try done; try lia.
    + eapply sublist_NoDup; [exact Hnd|apply ids_removeCart_sublist].
    + intros Hp. specialize (Hoff Hp). lia.
    + intros Hp. specialize (Hoff Hp). lia.
Qed.

Lemma X9_deck_invariant_witness :
  deck_ok (handleKeyDown PlayResolved (mkDeck false 0 [cartP; cartB])).
Proof.
  refine (proj1 (X9_deck_invariant PlayResolved
                   (mkDeck false 0 [cartP; cartB]) _)).
  split; [|split].
  - apply (bool_decide_unpack _). vm_compute. exact I.
  - vm_compute. lia.
  - intros _. reflexivity.
Defined.

(** X10: committing a title edit.  The carts with the edited id get the
    trimmed draft as their title, or "Untitled" when nothing is left of
    it, so a committed title is never empty; every other field and every
    other cart is untouched, and the edit is closed.  Without an edited
    id nothing changes. *)
Theorem X10_commitEditing (trim : string → string) (e : Editing)
    (prev : list CartItem) :
  let e' := fst (commitEditing trim e prev) in
  let next := snd (commitEditing trim e prev) in
  length next = length prev ∧
  (∀ i c, prev !! i = Some c →
     ∃ c', next !! i = Some c' ∧
       id c' = id c ∧ status c' = status c ∧ duration c' = duration c ∧
       file c' = file c ∧ url c' = url c ∧ addedAt c' = addedAt c ∧
       (editingId e ≠ Some (id c) → c' = c)) ∧
  (∀ k, editingId e = Some k → k ≠ "" →
     e' = cancelEditing ∧
     ∀ c', c' ∈ next → id c' = k →
       title c' ≠ "" ∧
       (trim (draftTitle e) ≠ "" → title c' = trim (draftTitle e)) ∧
       (trim (draftTitle e) = "" → title c' = "Untitled")) ∧
  (editingId e = None ∨ editingId e = Some "" → e' = e ∧ next = prev).
Proof.
  intros e' next. unfold e', next, commitEditing.
  destruct (editingId e) as [k|] eqn:Ek.
  2:{ cbn. split; [done|].
      split; [intros i c Hc; exists c; repeat split; done|].
      split; [done|]. intros _. by split. }
  destruct (decide (k = "")) as [->|Hk].
  { cbn. split; [done|].
    split; [intros i c Hc; exists c; repeat split; done|].
    split; [by intros k' [= <-]|]. intros _. by split. }
  cbn [fst snd]. split; [apply length_map|]. split; [|split].
  - intros i c Hc. rewrite map_fmap, list_lookup_fmap, Hc. cbn.
    eexists. split; [reflexivity|].
    case_decide as E; cbn; repeat split; try done.
    intros Hne. exfalso. apply Hne. by rewrite E.
  - intros k' [= <-] _. split; [done|].
    intros c'. rewrite map_fmap.
    intros (c & -> & Hc)%list_elem_of_fmap Hid.
    destruct (decide (id c = k)) as [_|Hne]; [|done].
    cbn. unfold nextTitle.
    destruct (decide (trim (draftTitle e) = "")) as [Et|Et].
    + split; [discriminate|]. split; [intros Hn; by destruct Hn|done].
    + split; [exact Et|]. split; [done|intros Hn; by destruct Et].
  - intros [? | [= ->]]; done.
Qed.

Lemma X10_commitEditing_witness :
  fst (commitEditing (λ _, "") (startEditing cartB) [cartA; cartB])
  = cancelEditing ∧
  Forall (λ c', id c' = "id-b" → title c' = "Untitled")
         (snd (commitEditing (λ _, "") (startEditing cartB)
                 [cartA; cartB])).
Proof.
  destruct (X10_commitEditing (λ _, "") (startEditing cartB)
              [cartA; cartB]) as (_ & _ & H & _).
  destruct (H "id-b" eq_refl ltac:(discriminate)) as [He H'].
  split; [exact He|]. apply Forall_forall.
  intros c' Hc' Hid. destruct (H' c' Hc' Hid) as (_ & _ & Hu).
  by apply Hu.
Defined.
End DeckFacts.

(** ** Drops *)

Section Drops.
Import CartStack App.

(** A reorder through the registry, seen from its stack. *)
Lemma carts_of_moveCartWithinStack stackId fromId toId (st : Registry)
    i moved :
  Some fromId ≠ toId →
  list_find (λ c, id c = fromId) (carts_of st stackId) = Some (i, moved) →
  let rest := delete i (carts_of st stackId) in
  let j := insertIndexOf toId rest in
  carts_of (App.moveCartWithinStack stackId fromId toId st) stackId
  = splice_in j (cartToInsert j moved) rest.
Proof.
  intros Hne Hfind. unfold App.moveCartWithinStack.
  rewrite carts_of_setStackCarts_eq.
  by apply moveCartWithinStack_found.
Qed.

Lemma last_splice_in_tail (moved : CartItem) (rest : list CartItem) :
  ∃ c, last (splice_in (insertIndexOf None rest)
               (cartToInsert (insertIndexOf None rest) moved) rest) = Some c ∧
       id c = id moved ∧ title c = title moved ∧
       duration c = duration moved ∧ file c = file moved ∧
       url c = url moved.
Proof.
  unfold insertIndexOf. rewrite splice_in_end, last_snoc.
  eexists. split; [done|].
  pose proof (cartToInsert_fields (length rest) moved)
    as (? & ? & ? & ? & ? & ?). done.
Qed.

(** X11: a cart dropped on the list of a stack becomes the last cart of
    that stack, whether it comes from the same stack or from another one;
    it keeps its id, title, duration, file and url.  The ids of its stack
    are distinct. *)
Theorem X11_handleDrop_tail h stackId data (st : Registry) moved :
  NoDup (map id (carts_of st (sourceStackId data))) →
  moved ∈ carts_of st (sourceStackId data) →
  id moved = cartId data →
  ∃ st',
    handleDrop h stackId (mkDataTransfer [] (Some (Some data))) st
    = Next st' ∧
    ∃ c, last (carts_of st' stackId) = Some c ∧
         id c = id moved ∧ title c = title moved ∧
         duration c = duration moved ∧ file c = file moved ∧
         url c = url moved.
Proof.
  intros Hnd [i Hi]%list_elem_of_lookup_1 Hid.
  pose proof (list_find_unique_id _ _ _ Hnd Hi) as Hfind.
  rewrite Hid in Hfind.
  unfold handleDrop. cbn [dt_files dt_cart].
  destruct (decide (sourceStackId data = stackId)) as [E|E].
  - eexists. split; [reflexivity|]. rewrite E in Hfind.
    rewrite (carts_of_moveCartWithinStack stackId (cartId data) None st
               i moved) by done.
    apply last_splice_in_tail.
  - destruct (moveCartAcrossStacks_found (sourceStackId data) stackId
                (cartId data) None st i moved E Hfind)
      as (st' & Hst' & _ & Hto & _).
    exists st'. split; [exact Hst'|]. rewrite Hto.
    apply last_splice_in_tail.
Qed.

Lemma X11_handleDrop_tail_witness :
  ∃ st' c,
    handleDrop hostA "stack-b"
      (mkDataTransfer [] (Some (Some (mkPayload "id-b" "stack-a"))))
      (<["stack-a" := [cartB; cartP]]> initialState) = Next st' ∧
    last (carts_of st' "stack-b") = Some c ∧
    id c = "id-b".
Proof.
  destruct (X11_handleDrop_tail hostA "stack-b" (mkPayload "id-b" "stack-a")
              (<["stack-a" := [cartB; cartP]]> initialState) cartB)
    as (st' & Hst' & c & Hc & Hid & _).
  - apply (bool_decide_unpack _). vm_compute. exact I.
  - apply (bool_decide_unpack _). vm_compute. exact I.
  - reflexivity.
  - exists st', c. split; [exact Hst'|]. split; [exact Hc|exact Hid].
Defined.

(** With a target that the stack holds, the insertion index is the
    position of the target: the inserted cart stands right before it. *)
Lemma splice_in_before_target (x target : CartItem) (rest : list CartItem) :
  NoDup (map id rest) → target ∈ rest → id target ≠ "" →
  let j := insertIndexOf (Some (id target)) rest in
  splice_in j x rest !! j = Some x ∧
  splice_in j x rest !! S j = Some target.
Proof.
  intros Hnd [j Hj]%list_elem_of_lookup_1 Hne.
  assert (Hidx : insertIndexOf (Some (id target)) rest = j).
  { unfold insertIndexOf. rewrite decide_False by done.
    by rewrite (findIndexId_unique _ _ j target Hnd Hj eq_refl). }
  cbn zeta. rewrite Hidx. pose proof (lookup_lt_Some _ _ _ Hj) as Hlt.
  split; [apply splice_in_lookup_at; lia|].
  by rewrite splice_in_lookup_after by lia.
Qed.

(** X12: a cart dropped on another cart of a stack lands immediately
    before that cart, whether it comes from the same stack or from another
    one.  The ids of both stacks are distinct and not empty. *)
Theorem X12_onDropOnCart_before h stackId (cart : CartItem) data
    (st : Registry) moved :
  NoDup (map id (carts_of st (sourceStackId data))) →
  NoDup (map id (carts_of st stackId)) →
  moved ∈ carts_of st (sourceStackId data) → id moved = cartId data →
  cart ∈ carts_of st stackId →
  id cart ≠ "" → cartId data ≠ "" → id cart ≠ id moved →
  ∃ st',
    onDropOnCart h stackId cart (mkDataTransfer [] (Some (Some data))) st
    = Next st' ∧
    ∃ p c, carts_of st' stackId !! p = Some c ∧ id c = id moved ∧
           carts_of st' stackId !! S p = Some cart.
Proof.
  intros Hnd Hnd' [i Hi]%list_elem_of_lookup_1 Hid Hcart Hne1 Hne2 Hne3.
  pose proof (list_find_unique_id _ _ _ Hnd Hi) as Hfind.
  rewrite Hid in Hfind.
  unfold onDropOnCart. cbn [dt_files dt_cart].
  destruct (decide (sourceStackId data = stackId)) as [E|E].
  - rewrite decide_True by (split; congruence).
    eexists. split; [reflexivity|].
    rewrite E in Hfind, Hi.
    rewrite (carts_of_moveCartWithinStack stackId (cartId data)
               (Some (id cart)) st i moved) by congruence.
    set (rest := delete i (carts_of st stackId)).
    destruct (splice_in_before_target
                (cartToInsert (insertIndexOf (Some (id cart)) rest) moved)
                cart rest) as [H1 H2].
    + by apply NoDup_ids_delete.
    + by eapply elem_of_delete_other.
    + done.
    + eexists _, _. split; [exact H1|]. split; [|exact H2].
      apply cartToInsert_fields.
  - destruct (moveCartAcrossStacks_found (sourceStackId data) stackId
                (cartId data) (Some (id cart)) st i moved E Hfind)
      as (st' & Hst' & _ & Hto & _).
    exists st'. split; [exact Hst'|]. rewrite Hto.
    destruct (splice_in_before_target
                (cartToInsert (insertIndexOf (Some (id cart))
                                 (carts_of st stackId)) moved)
                cart (carts_of st stackId) Hnd' Hcart Hne1) as [H1 H2].
    eexists _, _. split; [exact H1|]. split; [|exact H2].
    apply cartToInsert_fields.
Qed.

Lemma X12_onDropOnCart_before_witness :
  ∃ st',
    onDropOnCart hostA "stack-a" cartA
      (mkDataTransfer [] (Some (Some (mkPayload "id-p" "stack-a"))))
      (<["stack-a" := [cartA; cartB; cartP]]> initialState) = Next st' ∧
    ∃ p c, carts_of st' "stack-a" !! p = Some c ∧ id c = "id-p" ∧
           carts_of st' "stack-a" !! S p = Some cartA.
Proof.
  apply (X12_onDropOnCart_before hostA "stack-a" cartA
           (mkPayload "id-p" "stack-a")
           (<["stack-a" := [cartA; cartB; cartP]]> initialState) cartP).
  - apply (bool_decide_unpack _). vm_compute. exact I.
  - apply (bool_decide_unpack _). vm_compute. exact I.
  - apply (bool_decide_unpack _). vm_compute. exact I.
  - reflexivity.
  - apply (bool_decide_unpack _). vm_compute. exact I.
  - discriminate.
  - discriminate.
  - discriminate.
Defined.




End Drops.

(** ** Export, sample order and failing cuts *)

Section ExportSelection.
Import AudioEditor.

(** The blob of a selection that holds frames. *)
Lemma exportSelectionBlob_eq engine (b : AudioBuffer) (region : Region)
    (rs : list Region) (startSample endSample : Z) :
  made_by engine b →
  toSample (region_start region) (sampleRate b) = Int startSample →
  toSample (region_end region) (sampleRate b) = Int endSample →
  let len := Z.to_nat (endSample - startSample) in
  (0 < endSample - startSample < 2 ^ 32)%Z →
  let newBuffer :=
    mkBuffer (sampleRate b) len
      (map (λ channelData,
         map (λ j, readSample channelData (Int (startSample + Z.of_nat j)))
             (seq 0 len))
         (channels b)) in
  exportSelectionBlob engine (Some (Some b)) (region :: rs)
  = Ok (Some (headerBytes newBuffer len ++ dataBytes newBuffer len)).
Proof.
  intros Hb Hs He len Hlen newBuffer.
  unfold exportSelectionBlob.
  rewrite (extractRegion_eq engine b region _ _ Hb Hs He Hlen).
  cbn [mbind result_bind]. fold len newBuffer.
  rewrite bufferToWave_eq. reflexivity.
Qed.




(** X15: "Add to stack" hands the exported selection to the registry.
    With a selected stack and a selection that holds frames, fewer than
    2^32, the stack gains exactly one cart at its tail: [queued], of
    duration 0, titled [clip_<time>.wav], its file of type [audio/wav]; no
    other stack changes.  A selection without frames ends in the alert
    and leaves the registry as it is.  [startSample] and [endSample] are
    the floors of the numbers [t1] and [t2] that the doubles
    [region.start * sampleRate] and [region.end * sampleRate] are. *)
Theorem X15_addSelectionToStack engine (h : App.Host) (b : AudioBuffer)
    (region : Region) (rs : list Region) (stackId : string) (now : N)
    (st : App.Registry) (t1 t2 : Q) :
  made_by engine b → stackId ≠ "" →
  valueOf (region_start region * toNumber (sampleRate b))%float = Some t1 →
  valueOf (region_end region * toNumber (sampleRate b))%float = Some t2 →
  let startSample := Qfloor t1 in
  let endSample := Qfloor t2 in
  let run := addSelectionToStack engine true stackId (Some (Some b))
               (region :: rs) now in
  let f := mkFile (clipName now) "audio/wav" in
  ((endSample - startSample ≤ 0)%Z →
     run = Ok AlertNoRegion ∧ onAddSelection h AlertNoRegion st = st) ∧
  ((0 < endSample - startSample < 2 ^ 32)%Z →
     run = Ok (AddSelection stackId f) ∧
     App.carts_of (onAddSelection h (AddSelection stackId f) st) stackId
     = App.carts_of st stackId
       ++ [mkCart (App.uuidv4 h 0) f (App.createObjectURL h 0 f)
             (clipName now) 0 queued (App.now h 0)] ∧
     ∀ k, k ≠ stackId →
       App.carts_of (onAddSelection h (AddSelection stackId f) st) k
       = App.carts_of st k).
Proof.
  intros Hb Hsid Hs He startSample endSample run f.
  apply toSample_floor in Hs, He. fold startSample endSample in Hs, He.
  unfold run, addSelectionToStack.
  rewrite decide_False by (intros [? | ?]; done).
  split.
  - intros Hlen. unfold exportSelectionBlob.
    by rewrite (extractRegion_None engine b region _ _ Hs He Hlen).
  - intros Hlen.
    rewrite (exportSelectionBlob_eq engine b region rs _ _ Hb Hs He Hlen).
    split; [done|].
    unfold onAddSelection, App.handleAddSelection.
    split; [apply carts_of_addFilesToStack|].
    intros k Hk. unfold App.addFilesToStack.
    change (App.newCarts h [f])
      with [mkCart (App.uuidv4 h 0) f (App.createObjectURL h 0 f)
              (clipName now) 0 queued (App.now h 0)].
    by apply carts_of_insert_ne.
Qed.

Lemma X15_addSelectionToStack_witness :
  addSelectionToStack webAudio true "stack-b" (Some (Some mono5)) [noFrame] 7
  = Ok AlertNoRegion ∧
  addSelectionToStack webAudio true "stack-b" (Some (Some mono5)) [frames12] 7
  = Ok (AddSelection "stack-b" (mkFile "clip_7.wav" "audio/wav")) ∧
  App.carts_of
    (onAddSelection hostA
       (AddSelection "stack-b" (mkFile (clipName 7) "audio/wav"))
       App.initialState) "stack-b"
  = [mkCart "id-a" (mkFile "clip_7.wav" "audio/wav") "blob:a" "clip_7.wav"
       0 queued 0].
Proof.
  split.
  - destruct (X15_addSelectionToStack webAudio hostA mono5 noFrame
                [] "stack-b" 7 App.initialState _ _ made_by_mono5
                ltac:(discriminate) ltac:(vm_compute; reflexivity) ltac:(vm_compute; reflexivity))
      as [H _].
    apply H. vm_compute. discriminate.
  - destruct (X15_addSelectionToStack webAudio hostA mono5 frames12
                [] "stack-b" 7 App.initialState _ _ made_by_mono5
                ltac:(discriminate) ltac:(vm_compute; reflexivity) ltac:(vm_compute; reflexivity))
      as [_ H].
    destruct (H ltac:(vm_compute; split; reflexivity)) as (Hr & Hc & _).
    split; [exact Hr|]. rewrite Hc. reflexivity.
Defined.
End ExportSelection.

Section Order.
Import AudioEditor.

Lemma Qtrunc_mono (q1 q2 : Q) : (q1 <= q2)%Q → (Qtrunc q1 ≤ Qtrunc q2)%Z.
Proof.
  destruct q1 as [a b], q2 as [c d]. unfold Qle, Qtrunc. cbn [Qnum Qden].
  intros H.
  pose proof (Z.quot_rem' a (Z.pos b)) as Ea.
  pose proof (Z.quot_rem' c (Z.pos d)) as Ec.
  assert (Ra : (a < 0 → - Z.pos b < Z.rem a (Z.pos b) ≤ 0)%Z)
    by (intros; apply Z.rem_bound_pos_neg; lia).
  assert (Ra' : (0 ≤ a → 0 ≤ Z.rem a (Z.pos b) < Z.pos b)%Z)
    by (intros; apply Z.rem_bound_pos_pos; lia).
  assert (Rc : (c < 0 → - Z.pos d < Z.rem c (Z.pos d) ≤ 0)%Z)
    by (intros; apply Z.rem_bound_pos_neg; lia).
  assert (Rc' : (0 ≤ c → 0 ≤ Z.rem c (Z.pos d) < Z.pos d)%Z)
    by (intros; apply Z.rem_bound_pos_pos; lia).
  set (t1 := (a ÷ Z.pos b)%Z) in *. set (r1 := Z.rem a (Z.pos b)) in *.
  set (t2 := (c ÷ Z.pos d)%Z) in *. set (r2 := Z.rem c (Z.pos d)) in *.
  destruct (Z_lt_le_dec t2 t1) as [Hlt|]; [exfalso|lia].
  assert (H1 : (0 ≤ Z.pos b * (t1 - t2 - 1))%Z) by nia.
  assert (H2 : (0 < Z.pos b ∧ 0 < Z.pos d)%Z) by lia.
  destruct (Z_lt_le_dec a 0) as [Ha|Ha]; destruct (Z_lt_le_dec c 0) as [Hc|Hc].
  - specialize (Ra Ha). specialize (Rc Hc).
    assert (H3 : (Z.pos b * t2 + 1 ≤ a)%Z) by lia.
    assert (H4 : (0 ≤ Z.pos d * (a - Z.pos b * t2 - 1))%Z) by nia.
    assert (H5 : (0 ≤ Z.pos b * (Z.pos d * t2 - c))%Z) by nia.
    lia.
  - specialize (Ra Ha). specialize (Rc' Hc).
    assert (0 ≤ t2)%Z by nia. assert (t1 ≤ 0)%Z by nia. lia.
  - nia.
  - specialize (Ra' Ha). specialize (Rc' Hc).
    assert (H3 : (Z.pos b * (t2 + 1) ≤ a)%Z) by lia.
    assert (H4 : (0 ≤ Z.pos d * (a - Z.pos b * (t2 + 1)))%Z) by nia.
    assert (H5 : (0 < Z.pos b * (Z.pos d * (t2 + 1) - c))%Z) by nia.
    lia.
Qed.

(** The written value of a number: the integer part of the scaled,
    clamped sample. *)
Lemma intSample_Num (q : Q) :
  ∃ c : Q,
    (-1 <= c <= 1)%Q ∧
    ((-1 <= q <= 1)%Q → c == q) ∧ ((q < -1)%Q → c = (-1)%Q) ∧
    ((1 < q)%Q → c = 1%Q) ∧
    intSample (Num q)
    = Qtrunc (if Qlt_le_dec c 0 then c * 32768 else c * 32767).
Proof.
  destruct (clamp_Num q) as (c & Hc & Hr & H1 & H2 & H3).
  exists c. do 4 (split; [assumption|]).
  unfold intSample. rewrite Hc. unfold scale.
  destruct c as [n d]. destruct (Qlt_le_dec (n # d) 0) as [Hneg|Hpos].
  - assert (Hn : (- Z.pos d ≤ n < 0)%Z).
    { destruct Hr as [Hlo _]. unfold Qle, Qlt in *. cbn in *. lia. }
    destruct (Qtrunc_scale_neg n d Hn) as [Ht _].
    by rewrite toInt16_small by lia.
  - assert (Hn : (0 ≤ n ≤ Z.pos d)%Z).
    { destruct Hr as [_ Hhi]. unfold Qle, Qlt in *. cbn in *. lia. }
    destruct (Qtrunc_scale_pos n d Hn) as [Ht _].
    by rewrite toInt16_small by lia.
Qed.

(** X16: quantization keeps the order of the samples and clips at both
    ends: a larger sample never gets a smaller 16-bit value, every sample
    from 1 upwards is written as 32767 and every sample down from -1 as
    -32768, and the sign is kept. *)
Theorem X16_intSample_order (q1 q2 : Q) :
  ((q1 <= q2)%Q → (intSample (Num q1) ≤ intSample (Num q2))%Z) ∧
  ((1 <= q1)%Q → intSample (Num q1) = 32767%Z) ∧
  ((q1 <= -1)%Q → intSample (Num q1) = (-32768)%Z) ∧
  ((0 <= q1)%Q → (0 ≤ intSample (Num q1))%Z) ∧
  ((q1 <= 0)%Q → (intSample (Num q1) ≤ 0)%Z).
Proof.
  assert (Hmono : ∀ a b, (a <= b)%Q →
                         (intSample (Num a) ≤ intSample (Num b))%Z).
  { intros a b Hab.
    destruct (intSample_Num a) as (ca & Hra & Ha1 & Ha2 & Ha3 & ->).
    destruct (intSample_Num b) as (cb & Hrb & Hb1 & Hb2 & Hb3 & ->).
    apply Qtrunc_mono.
    assert (Hc : (ca <= cb)%Q).
    { destruct (Qlt_le_dec a (-1)) as [Ea|Ea];
        [rewrite (Ha2 Ea); apply Hrb|].
      destruct (Qlt_le_dec 1 b) as [Eb|Eb];
        [rewrite (Hb3 Eb); apply Hra|].
      rewrite Ha1, Hb1 by (split; lra). exact Hab. }
    destruct (Qlt_le_dec ca 0), (Qlt_le_dec cb 0); lra. }
  assert (Hone : intSample (Num 1) = 32767%Z) by reflexivity.
  assert (Hmone : intSample (Num (-1)) = (-32768)%Z) by reflexivity.
  assert (Hzero : intSample (Num 0) = 0%Z) by reflexivity.
  split; [apply Hmono|]. split; [|split; [|split]].
  - intros H. pose proof (Hmono 1%Q q1 H) as Hlo.
    pose proof (toInt16_range (scale (clamp (Num q1)))) as Hr.
    fold (intSample (Num q1)) in Hr. lia.
  - intros H. pose proof (Hmono q1 (-1)%Q H) as Hhi.
    pose proof (toInt16_range (scale (clamp (Num q1)))) as Hr.
    fold (intSample (Num q1)) in Hr. lia.
  - intros H. rewrite <- Hzero. by apply Hmono.
  - intros H. rewrite <- Hzero. by apply Hmono.
Qed.

Lemma X16_intSample_order_witness :
  (intSample (Num (1 # 3)) ≤ intSample (Num (1 # 2)))%Z ∧
  intSample (Num (5 # 4)) = 32767%Z.
Proof.
  split.
  - apply (proj1 (X16_intSample_order (1 # 3) (1 # 2))). lra.
  - apply (proj1 (proj2 (X16_intSample_order (5 # 4) 0))). lra.
Defined.
End Order.

Section CutAndExport.
Import AudioEditor.

(** X17: cutting and exporting the same region split the buffer.  For a
    region inside the buffer, [startSample] and [endSample] being the
    floors of the numbers [t1] and [t2] that the doubles
    [region.start * sampleRate] and [region.end * sampleRate] are, the
    frames that the export copies and the frames that the ripple delete keeps add up to
    the frames of the source, and putting the exported frames back at
    [startSample] of the shortened channel gives the source channel
    again. *)
Theorem X17_cut_and_export engine (b : AudioBuffer) (region : Region)
    (rs : list Region) (t1 t2 : Q) :
  made_by engine b →
  valueOf (region_start region * toNumber (sampleRate b))%float = Some t1 →
  valueOf (region_end region * toNumber (sampleRate b))%float = Some t2 →
  let startSample := Qfloor t1 in
  let endSample := Qfloor t2 in
  (0 < endSample - startSample < Z.of_nat (buffer_length b))%Z →
  (0 ≤ startSample)%Z → (endSample ≤ Z.of_nat (buffer_length b))%Z →
  ∃ exported frames kept wavBlob,
    extractRegion engine b region = Ok (Some (exported, frames)) ∧
    rippleDeleteSelection engine (Some (Some b)) (region :: rs)
    = Ok (Replaced kept wavBlob) ∧
    buffer_length exported = frames ∧
    (buffer_length exported + buffer_length kept = buffer_length b)%nat ∧
    ∀ i channelData, channels b !! i = Some channelData →
      ∃ cut rest,
        channels exported !! i = Some cut ∧
        channels kept !! i = Some rest ∧
        channelData
        = take (Z.to_nat startSample) rest ++ cut
          ++ drop (Z.to_nat startSample) rest.
Proof.
  intros Hb Hs He startSample endSample Hcut H0 Hend.
  apply toSample_floor in Hs, He. fold startSample endSample in Hs, He.
  pose proof Hb as ([Hnc Hch] & _ & Hlen & _).
  eexists _, _, _, _.
  split; [apply (extractRegion_eq engine b region _ _ Hb Hs He); lia|].
  split; [by apply rippleDeleteSelection_eq|].
  cbn [buffer_length channels]. split; [done|]. split; [lia|].
  intros i channelData Hi.
  assert (Hl : length channelData = buffer_length b).
  { apply list_elem_of_lookup_2 in Hi.
    exact (proj1 (Forall_forall _ _) Hch _ Hi). }
  eexists _, _.
  split; [by rewrite map_fmap, list_lookup_fmap, Hi|].
  split; [by rewrite map_fmap, list_lookup_fmap, Hi|].
  cbn beta.
  rewrite (read_slice channelData startSample) by lia.
  rewrite take_app_length', drop_app_length'
    by (rewrite length_take; lia).
  rewrite <- (take_drop (Z.to_nat startSample) channelData) at 1.
  f_equal.
  rewrite <- (take_drop (Z.to_nat (endSample - startSample))
                (drop (Z.to_nat startSample) channelData)) at 1.
  f_equal. rewrite drop_drop. f_equal. lia.
Qed.

Lemma X17_cut_and_export_witness :
  ∃ exported kept wavBlob,
    extractRegion webAudio mono5 frames12 = Ok (Some (exported, 2%nat)) ∧
    rippleDeleteSelection webAudio (Some (Some mono5)) [frames12]
    = Ok (Replaced kept wavBlob) ∧
    (buffer_length exported + buffer_length kept = 5)%nat.
Proof.
  destruct (X17_cut_and_export webAudio mono5 frames12 [] _ _ made_by_mono5
              ltac:(vm_compute; reflexivity) ltac:(vm_compute; reflexivity))
    as (exported & frames & kept & wavBlob & H1 & H2 & H3 & H4 & _).
  - vm_compute. split; reflexivity.
  - vm_compute. discriminate.
  - vm_compute. discriminate.
  - exists exported, kept, wavBlob.
    assert (frames = 2%nat) as ->.
    { vm_compute in H1. by injection H1 as _ <-. }
    split; [exact H1|]. split; [exact H2|]. exact H4.
Defined.
End CutAndExport.

Section RippleErrors.
Import AudioEditor.

(** X18: with [startSample] and [endSample] the floors of the numbers
    [t1] and [t2] that the doubles [region.start * sampleRate] and
    [region.end * sampleRate] are: when [startSample] lies inside the
    buffer and [endSample] past the last frame, with fewer frames between
    them than the buffer holds, the ripple delete fails: the kept prefix does not fit into the shortened
    channel, [set] raises [RangeError], and no outcome is produced. *)
Theorem X18_ripple_past_end engine (b : AudioBuffer) (region : Region)
    (rs : list Region) (t1 t2 : Q) :
  made_by engine b →
  valueOf (region_start region * toNumber (sampleRate b))%float = Some t1 →
  valueOf (region_end region * toNumber (sampleRate b))%float = Some t2 →
  let startSample := Qfloor t1 in
  let endSample := Qfloor t2 in
  (0 ≤ startSample ≤ Z.of_nat (buffer_length b))%Z →
  (Z.of_nat (buffer_length b) < endSample)%Z →
  (endSample - startSample < Z.of_nat (buffer_length b))%Z →
  rippleDeleteSelection engine (Some (Some b)) (region :: rs)
  = Throw RangeError.
Proof.
  intros Hb Hs He startSample endSample H0 Hend Hcut.
  apply toSample_floor in Hs, He. fold startSample endSample in Hs, He.
  pose proof Hb as ([Hnc Hch] & _ & Hlen & _).
  unfold rippleDeleteSelection. rewrite Hs, He. cbn [minus].
  rewrite le_num_roundInt_0, bool_decide_eq_false_2 by lia.
  rewrite le_num_Int_roundInt, bool_decide_eq_false_2 by lia.
  rewrite (roundInt_small (endSample - startSample)) by lia. cbn [minus].
  rewrite roundInt_small by lia.
  rewrite (createBuffer_ok engine b _ Hb) by lia.
  cbn [mbind result_bind channels]. unfold numberOfChannels in *.
  destruct (channels b) as [|channelData chans] eqn:Ec; [cbn in Hnc; lia|].
  apply Forall_cons in Hch as [Hl _].
  cbn [length replicate zip zip_with mapM mbind result_bind].
  unfold rippleChannel.
  rewrite subarray_prefix by lia.
  set (newChannelData := replicate _ (Num 0)).
  assert (typedSet newChannelData (take (Z.to_nat startSample) channelData)
            (Int 0) = Throw RangeError) as ->; [|done].
  unfold typedSet. rewrite decide_True; [done|]. right.
  unfold newChannelData. rewrite length_replicate, length_take. lia.
Qed.

Lemma X18_ripple_past_end_witness :
  rippleDeleteSelection webAudio (Some (Some mono5)) [pastEnd]
  = Throw RangeError.
Proof.
  apply (X18_ripple_past_end webAudio mono5 pastEnd [] _ _ made_by_mono5
           ltac:(vm_compute; reflexivity) ltac:(vm_compute; reflexivity)).
  - vm_compute. split; discriminate.
  - vm_compute. reflexivity.
  - vm_compute. reflexivity.
Defined.
End RippleErrors.
